(** * The [user] router of the T3 demo: create / list / delete over one table

  Source: [src/server/routers/user.ts].  The router is three tRPC
  procedures.  Each one is an optional zod input parser followed by a
  handler that issues exactly one drizzle statement against the
  [users] table of the PostgreSQL store.

  The embedding has three layers, in the order of the imports of
  [user.ts]:

  - [zod]: the parsers [z.string().min(1, _)], [z.string().email(_)],
    [z.number()] and [z.object({...})], over wire values ([json]);
  - the store: the [users] table with the constraints of the schema
    ([serial] primary key, [unique] email, [defaultNow] timestamp) and
    the three statements the router issues;
  - the router itself: [getAll], [create] and [delete].

  Effects are explicit: a procedure is a function from the request
  context to the new context and a result.  The context holds the
  table and the trace of the statements sent to the store, so that
  "no store access" is a statement about the trace. *)

From Stdlib Require Import QArith Ascii String.
From stdpp Require Import gmap strings list sorting.

Local Open Scope string_scope.
Local Open Scope list_scope.
Local Open Scope Z_scope.

(** ** Wire values

  The input of a procedure is an arbitrary deserialised value; the
  type of the handler's [input] is only established by the parser.
  Numbers are the finite decimals of the wire format. *)

#[warnings="-register-all"] Inductive json : Type :=
  | JNull
  | JBool (b : bool)
  | JNum (q : Q)
  | JStr (s : string)
  | JArr (l : list json)
  | JObj (o : gmap string json).

(** ** zod *)

Module zod.

Inductive ZodIssueCode := invalid_type | too_small | invalid_string.

(** An issue names the offending field by its [path]; [message] is
    the text given in the schema, [None] when the schema gives none
    and the library's default text is used. *)
Record ZodIssue := mkIssue {
  code : ZodIssueCode;
  path : list string;
  message : option string;
}.

Inductive SafeParse (A : Type) :=
  | success (data : A)
  | failure (issues : list ZodIssue).
Arguments success {A} data.
Arguments failure {A} issues.

Definition issues_of {A} (r : SafeParse A) : list ZodIssue :=
  match r with success _ => [] | failure l => l end.

(** A schema parses the value found at [path]; [None] is a missing
    key ([undefined]). *)
Definition Schema (A : Type) := list string → option json → SafeParse A.

(** One refinement of a string schema, such as [.min(1, msg)]. *)
Record StringCheck := mkCheck {
  check_ok : string → bool;
  check_code : ZodIssueCode;
  check_message : string;
}.

Definition run_checks (checks : list StringCheck) (p : list string)
    (s : string) : list ZodIssue :=
  omap (λ c, if check_ok c s then None
             else Some (mkIssue (check_code c) p (Some (check_message c))))
       checks.

(** [.min(n, msg)]: the string has at least [n] characters. *)
Definition min (n : nat) (msg : string) : StringCheck :=
  mkCheck (λ s, (n <=? String.length s)%nat) too_small msg.

(** [.email(msg)]: the string passes the library's e-mail test. *)
Definition email (isEmail : string → bool) (msg : string) : StringCheck :=
  mkCheck isEmail invalid_string msg.

(** [z.number()]: any number, integral or not. *)
Definition number : Schema Q :=
  λ p v,
    match v with
    | Some (JNum q) => success q
    | _ => failure [mkIssue invalid_type p None]
    end.

(** [z.object({k: s})]: every key of the shape is parsed, unknown keys
    are dropped, the issues of all the fields are collected. *)
Definition object1 {A C} (k : string) (s : Schema A) (mk : A → C)
    : Schema C :=
  λ p v,
    match v with
    | Some (JObj o) =>
        match s (p ++ [k]) (o !! k) with
        | success a => success (mk a)
        | failure l => failure l
        end
    | _ => failure [mkIssue invalid_type p None]
    end.

(** [z.object({k1: s1, k2: s2})]. *)
Definition object2 {A B C} (k1 : string) (s1 : Schema A)
    (k2 : string) (s2 : Schema B) (mk : A → B → C) : Schema C :=
  λ p v,
    match v with
    | Some (JObj o) =>
        match s1 (p ++ [k1]) (o !! k1), s2 (p ++ [k2]) (o !! k2) with
        | success a, success b => success (mk a b)
        | r1, r2 => failure (issues_of r1 ++ issues_of r2)
        end
    | _ => failure [mkIssue invalid_type p None]
    end.

(** [schema.safeParse(raw)] at the root. *)
Definition safeParse {A} (s : Schema A) (raw : json) : SafeParse A :=
  s [] (Some raw).

(** [z.string()] followed by its refinements: a non-string is an
    [invalid_type] issue and the refinements are not run. *)
Definition string (checks : list StringCheck) : Schema String.string :=
  λ p v,
    match v with
    | Some (JStr s) =>
        match run_checks checks p s with
        | [] => success s
        | l => failure l
        end
    | _ => failure [mkIssue invalid_type p None]
    end.

End zod.

(** ** The store

  The table of [src/db/schema.ts], as the repository's guide quotes it:
[[
  users = pgTable("users", {
    id:        serial("id").primaryKey(),
    name:      text("name").notNull(),
    email:     text("email").notNull().unique(),
    createdAt: timestamp("created_at").defaultNow().notNull() })
]]
  A timestamp is a count of clock ticks.  [rows] is the table in the
  order of insertion; [id_seq] is the last value handed out by the
  sequence behind [serial].  The column [id] holds 32-bit signed
  integers, and the store refuses a parameter bound to it that is not
  one.  The exhaustion of the sequence and the loss of the connection
  are outside the model. *)

Record User := mkUser {
  id : Z;
  name : string;
  email : string;
  createdAt : Z;
}.

Record Table := mkTable {
  rows : list User;
  id_seq : Z;
}.

Inductive Constraint := users_pkey | users_email_unique.

(** The statements the router sends to the store. *)
Inductive Stmt :=
  | SELECT_ORDER_BY_createdAt
  | INSERT_RETURNING (n e : string)
  | DELETE_WHERE_id (q : Q).

Record Ctx := mkCtx {
  db : Table;
  trace : list Stmt;
}.

(** Failures of a procedure, under the names of the error taxonomy:
  [ValidationError] is the rejection of the input by its parser (a
  [BAD_REQUEST] carrying the zod issues); [ConstraintViolation] is the
  store's unique-violation, which the handlers do not catch;
  [DataException] is the store refusing a parameter that is not of
  the column's type. *)
Inductive TRPCError :=
  | ValidationError (issues : list zod.ZodIssue)
  | ConstraintViolation (c : Constraint)
  | DataException.

Inductive Result (A : Type) :=
  | Ok (a : A)
  | Err (e : TRPCError).
Arguments Ok {A} a.
Arguments Err {A} e.

(** A procedure body: state passing over the context, with failure. *)
Definition Proc (A : Type) := Ctx → Ctx * Result A.

Definition ret {A} (a : A) : Proc A := λ ctx, (ctx, Ok a).

Definition bind {A B} (m : Proc A) (k : A → Proc B) : Proc B :=
  λ ctx,
    match m ctx with
    | (ctx', Ok a) => k a ctx'
    | (ctx', Err e) => (ctx', Err e)
    end.

Notation "'await' x ← m ; k" := (bind m (λ x, k))
  (at level 10, x name, m at level 100, k at level 200,
   format "'[v' 'await'  x  ←  m ;  '/' k ']'").

Definition createdAt_le (u v : User) : Prop := createdAt u ≤ createdAt v.

#[global] Instance createdAt_le_dec : RelDecision createdAt_le.
Proof. intros u v. unfold createdAt_le. apply _. Defined.

(** The values of the column [id]: [serial] is a 32-bit signed integer. *)
Definition int4 (z : Z) : Prop := -2147483648 ≤ z ≤ 2147483647.

#[global] Instance int4_dec (z : Z) : Decision (int4 z).
Proof. unfold int4. apply _. Defined.

(** The value of the column [id] bound to a number: the store takes
  the whole numbers of the range of the column and refuses every
  other number. *)
Definition int_of_number (q : Q) : option Z :=
  let r := Qred q in
  if decide (Qden r = 1%positive ∧ int4 (Qnum r)) then Some (Qnum r)
  else None.

(** [db.select().from(users).orderBy(users.createdAt)]: every row, in
  ascending order of [createdAt]. *)
Definition select_orderBy_createdAt : Proc (list User) :=
  λ ctx,
    (mkCtx (db ctx) (trace ctx ++ [SELECT_ORDER_BY_createdAt]),
     Ok (merge_sort createdAt_le (rows (db ctx)))).

(** [db.insert(users).values({name, email}).returning()]: the defaults
  are evaluated first ([nextval] of the sequence, which is consumed
  even when the insertion then fails, and the clock [now]); the row is
  stored only if neither unique index rejects it. *)
Definition insert_returning (now : Z) (n e : string) : Proc (list User) :=
  λ ctx,
    let t := db ctx in
    let newId := id_seq t + 1 in
    let tr := trace ctx ++ [INSERT_RETURNING n e] in
    if bool_decide (newId ∈ id <$> rows t) then
      (mkCtx (mkTable (rows t) newId) tr, Err (ConstraintViolation users_pkey))
    else if bool_decide (e ∈ email <$> rows t) then
      (mkCtx (mkTable (rows t) newId) tr,
       Err (ConstraintViolation users_email_unique))
    else
      let u := mkUser newId n e now in
      (mkCtx (mkTable (rows t ++ [u]) newId) tr, Ok [u]).

(** [db.delete(users).where(eq(users.id, q))]. *)
Definition delete_where_id (q : Q) : Proc unit :=
  λ ctx,
    let t := db ctx in
    let tr := trace ctx ++ [DELETE_WHERE_id q] in
    match int_of_number q with
    | Some i =>
        (mkCtx (mkTable (filter (λ u, id u ≠ i) (rows t)) (id_seq t)) tr, Ok ())
    | None => (mkCtx t tr, Err DataException)
    end.

(** ** The router *)

Record CreateInput := mkCreateInput {
  input_name : string;
  input_email : string;
}.

Record DeleteInput := mkDeleteInput {
  input_id : Q;
}.

Record DeleteResponse := mkDeleteResponse {
  success : bool;
}.

(** [publicProcedure.input(schema).mutation(handler)]: the handler runs
  on the parsed input, and only when the parser accepts. *)
Definition input {A B} (schema : zod.Schema A) (handler : A → Proc B)
  (raw : json) : Proc B :=
  λ ctx,
    match zod.safeParse schema raw with
    | zod.success a => handler a ctx
    | zod.failure l => (ctx, Err (ValidationError l))
    end.

Module userRouter.
Section procedures.

(** The e-mail test of [z.string().email()], a function of the zod
    library. *)
Variable isEmail : string → bool.

Definition create_schema : zod.Schema CreateInput :=
  zod.object2
    "name" (zod.string [zod.min 1%nat "Name is required"])
    "email" (zod.string [zod.email isEmail "Invalid email address"])
    mkCreateInput.

Definition delete_schema : zod.Schema DeleteInput :=
  zod.object1 "id" zod.number mkDeleteInput.

Definition getAll : Proc (list User) :=
  select_orderBy_createdAt.

(** [const [newUser] = await ...returning(); return newUser]. *)
Definition create (now : Z) : json → Proc (option User) :=
  input create_schema (λ i,
    await returned ← insert_returning now (input_name i) (input_email i);
    ret (head returned)).

Definition delete : json → Proc DeleteResponse :=
  input delete_schema (λ i,
    await _ ← delete_where_id (input_id i);
    ret (mkDeleteResponse true)).

End procedures.
End userRouter.

(** ** The e-mail test of the zod library

  [z.string().email()] tests the string against the library's pattern
[[
  ^ (?!\.) (?!.*\.\.)
    ( [A-Z0-9_'+\-\.]* ) [A-Z0-9_+-]
    @
    ( [A-Z0-9] [A-Z0-9\-]* \. )+ [A-Z]{2,} $        flag i
]]
  (written here with blanks between its parts).
  The pattern is deterministic: no class of the local part or of the
  domain contains [@], and no class of a label contains the dot, so
  the string is cut at its [@] and the domain at its dots.  A string
  the body of the pattern matches has no line terminator, so the
  second look-ahead sees the whole string. *)

Module emailRegex.

Definition between (lo hi : nat) (c : ascii) : bool :=
  let n := nat_of_ascii c in ((lo <=? n) && (n <=? hi))%nat.

(** [[A-Z]] under the flag [i] *)
Definition is_letter (c : ascii) : bool :=
  between 65 90 c || between 97 122 c.

Definition is_digit (c : ascii) : bool := between 48 57 c.

Definition is_alnum (c : ascii) : bool := is_letter c || is_digit c.

Definition is_char (x c : ascii) : bool := Ascii.eqb c x.

(** [[A-Z0-9_+-]] *)
Definition local_last (c : ascii) : bool :=
  is_alnum c || is_char "_" c || is_char "+" c || is_char "-" c.

(** [[A-Z0-9_'+\-\.]] *)
Definition local_char (c : ascii) : bool :=
  local_last c || is_char "'" c || is_char "." c.

(** [[A-Z0-9\-]] *)
Definition label_char (c : ascii) : bool :=
  is_alnum c || is_char "-" c.

(** The pieces of [s] between the occurrences of [sep]. *)
Fixpoint split (sep : ascii) (s : list ascii) : list (list ascii) :=
  match s with
  | [] => [[]]
  | c :: s' =>
      if Ascii.eqb c sep then [] :: split sep s'
      else match split sep s' with
           | piece :: pieces => (c :: piece) :: pieces
           | [] => [[c]]
           end
  end.

(** the look-ahead for a leading dot fails *)
Definition starts_with_dot (s : list ascii) : bool :=
  match s with
  | c :: _ => is_char "." c
  | [] => false
  end.

(** the look-ahead for two dots in a row fails *)
Fixpoint has_dot_dot (s : list ascii) : bool :=
  match s with
  | c :: s' =>
      (is_char "." c && starts_with_dot s') || has_dot_dot s'
  | [] => false
  end.

(** the local part: [[A-Z0-9_'+\-\.]] repeated, then [[A-Z0-9_+-]] *)
Definition local_ok (l : list ascii) : bool :=
  match reverse l with
  | c :: init => local_last c && forallb local_char init
  | [] => false
  end.

(** a label: [[A-Z0-9]], then [[A-Z0-9\-]] repeated, up to its dot *)
Definition label_ok (l : list ascii) : bool :=
  match l with
  | c :: l' => is_alnum c && forallb label_char l'
  | [] => false
  end.

(** [[A-Z]{2,}] *)
Definition tld_ok (l : list ascii) : bool :=
  (2 <=? length l)%nat && forallb is_letter l.

(** the domain: one label or more, then [[A-Z]{2,}] *)
Definition domain_ok (d : list ascii) : bool :=
  match reverse (split "." d) with
  | tld :: label :: labels => tld_ok tld && forallb label_ok (label :: labels)
  | _ => false
  end.

Definition test (s : string) : bool :=
  let cs := list_ascii_of_string s in
  negb (starts_with_dot cs) && negb (has_dot_dot cs) &&
  match split "@" cs with
  | [l; d] => local_ok l && domain_ok d
  | _ => false
  end.

End emailRegex.

(** ** The requests of the page

  [src/app/page.tsx] calls the router with [createUser.mutate({ name,
  email })] and [deleteUser.mutate({ id: user.id })]. *)

Definition create_request (n e : string) : json :=
  JObj (<["name" := JStr n]> (<["email" := JStr e]> ∅)).

Definition delete_request (i : Z) : json :=
  JObj (<["id" := JNum (inject_Z i)]> ∅).

(** The store before the first call: no row, the sequence not yet used. *)
Definition empty_ctx : Ctx := mkCtx (mkTable [] 0) [].

(** The store of the first scenario: after [create({name: "Ada", email:
    "ada@x.com"})] at clock reading 10. *)
Definition ada : User := mkUser 1 "Ada" "ada@x.com" 10.

Definition ctx_ada : Ctx :=
  mkCtx (mkTable [ada] 1) [INSERT_RETURNING "Ada" "ada@x.com"].

(** A [delete] request whose [id] is the number 1.5. *)
Definition fraction_request : json :=
  JObj (<["id" := JNum (3 # 2)]> ∅).

(** ** Sequences of calls *)

Inductive Call :=
  | CallGetAll
  | CallCreate (now : Z) (raw : json)
  | CallDelete (raw : json).

Definition step (isEmail : string → bool) (ctx : Ctx) (c : Call) : Ctx :=
  match c with
  | CallGetAll => fst (userRouter.getAll ctx)
  | CallCreate now raw => fst (userRouter.create isEmail now raw ctx)
  | CallDelete raw => fst (userRouter.delete raw ctx)
  end.

Definition run (isEmail : string → bool) (calls : list Call) (ctx : Ctx) : Ctx :=
  foldl (step isEmail) ctx calls.

(** A sequence of [create] calls, each with the reading of the store's
    clock at its insertion; the result is the final context and the
    records the calls returned, in the order of the calls. *)
Fixpoint creates (isEmail : string → bool) (calls : list (Z * json))
    (ctx : Ctx) : Ctx * list User :=
  match calls with
  | [] => (ctx, [])
  | (now, raw) :: calls' =>
      let '(ctx1, r) := userRouter.create isEmail now raw ctx in
      let '(ctx2, us) := creates isEmail calls' ctx1 in
      (ctx2, match r with Ok (Some u) => u :: us | _ => us end)
  end.

(** ** What the schema promises of a table

    The primary key and the unique index hold, and the sequence is past
    every [id] it has handed out. *)

Record wf (t : Table) : Prop := mkWf {
  wf_pkey : NoDup (id <$> rows t);
  wf_email : NoDup (email <$> rows t);
  wf_seq : Forall (λ u, id u ≤ id_seq t) (rows t);
}.

(** ** Notions of the specification

    These two follow the wording of the specification, not the code:
    "non-empty after trimming" and "local-part@domain, at least one dot
    in domain".  They are what the parsers are compared with. *)

Definition is_space (c : ascii) : bool :=
  existsb (Ascii.eqb c) [" "; "009"; "010"; "011"; "012"; "013"]%char.

Fixpoint trim_start (s : list ascii) : list ascii :=
  match s with
  | c :: s' => if is_space c then trim_start s' else s
  | [] => []
  end.

Definition trim (s : string) : string :=
  string_of_list_ascii
    (reverse (trim_start (reverse (trim_start (list_ascii_of_string s))))).

Definition email_shape (s : string) : Prop :=
  ∃ l d : list ascii,
    list_ascii_of_string s = l ++ "@"%char :: d ∧ l ≠ [] ∧ "."%char ∈ d.

(** ** The page

    The component [Home] of [src/app/page.tsx], the caller of the three
    procedures.  Its state is the two fields of the form ([useState]),
    the data of the [getAll] query ([undefined] until the first answer)
    and the error of the [create] mutation.  A handler is taken with
    the settled outcome of the call it starts: the request, the answer,
    the [onSuccess] callback and the answer of the refetch that
    [invalidate] starts.  What the page shows while a call is pending
    is not described. *)

Module Home.

Record State := mkState {
  form_name : string;
  form_email : string;
  users : option (list User);
  createUser_error : option TRPCError;
}.

(** [useState("")], twice; no answer of the query, no mutation yet. *)
Definition initial : State := mkState "" "" None None.

(** The truth value of a string in a condition: the empty string is
    false, every other string is true. *)
Definition truthy (s : string) : bool :=
  match s with
  | EmptyString => false
  | String _ _ => true
  end.

Definition setName (s : string) (st : State) : State :=
  mkState s (form_email st) (users st) (createUser_error st).

Definition setEmail (s : string) (st : State) : State :=
  mkState (form_name st) s (users st) (createUser_error st).

(** The answer of [trpc.user.getAll.useQuery()] becomes [users]; this
    is the first fetch and every refetch. *)
Definition fetch (ctx : Ctx) (st : State) : Ctx * State :=
  match userRouter.getAll ctx with
  | (ctx', Ok l) =>
      (ctx', mkState (form_name st) (form_email st) (Some l)
                     (createUser_error st))
  | (ctx', Err _) => (ctx', st)
  end.

(** [utils.user.getAll.invalidate()]: the query is mounted, so it is
    fetched again. *)
Definition invalidate : Ctx → State → Ctx * State := fetch.

Section component.

Variable isEmail : string → bool.

(** [if (name && email) { createUser.mutate({ name, email }) }], with
    the [onSuccess] of [createUser]; a failed mutation keeps its error,
    a successful one has none. *)
Definition handleSubmit (now : Z) (ctx : Ctx) (st : State) : Ctx * State :=
  if truthy (form_name st) && truthy (form_email st) then
    match userRouter.create isEmail now
            (create_request (form_name st) (form_email st)) ctx with
    | (ctx1, Ok _) =>
        let '(ctx2, st2) := invalidate ctx1 st in
        (ctx2, mkState "" "" (users st2) None)
    | (ctx1, Err e) =>
        (ctx1, mkState (form_name st) (form_email st) (users st) (Some e))
    end
  else (ctx, st).

(** [onClick={() => deleteUser.mutate({ id: user.id })}], with the
    [onSuccess] of [deleteUser]. *)
Definition onClickDelete (user : User) (ctx : Ctx) (st : State) : Ctx * State :=
  match userRouter.delete (delete_request (id user)) ctx with
  | (ctx1, Ok _) => invalidate ctx1 st
  | (ctx1, Err _) => (ctx1, st)
  end.

End component.

(** [disabled={createUser.isPending || !name || !email}], when no call
    is pending. *)
Definition addUserDisabled (st : State) : bool :=
  negb (truthy (form_name st)) || negb (truthy (form_email st)).

End Home.

(** The clock readings of the [create] calls of a sequence. *)
Definition clock (calls : list Call) : list Z :=
  omap (λ c, match c with CallCreate now _ => Some now | _ => None end) calls.

(** * Properties of the store *)

Lemma Qred_inject_Z (i : Z) : Qred (inject_Z i) = inject_Z i.
Proof.
  unfold Qred, inject_Z.
  pose proof (Z.ggcd_gcd i 1) as Hg.
  pose proof (Z.ggcd_correct_divisors i 1) as Hd.
  destruct (Z.ggcd i 1) as [g [a b]]; simpl in *.
  rewrite Z.gcd_1_r in Hg. subst g.
  destruct Hd as [-> Hb].
  assert (b = 1) as -> by lia.
  f_equal. lia.
Qed.

Lemma int_of_number_inject_Z (i : Z) :
  int4 i → int_of_number (inject_Z i) = Some i.
Proof.
  intros Hi. unfold int_of_number. rewrite Qred_inject_Z. simpl.
  by rewrite decide_True.
Qed.

Lemma int_of_number_out_of_range (i : Z) :
  ¬ int4 i → int_of_number (inject_Z i) = None.
Proof.
  intros Hi. unfold int_of_number. rewrite Qred_inject_Z. simpl.
  rewrite decide_False; [done|]. by intros [_ ?].
Qed.

Lemma wf_empty : wf (db empty_ctx).
Proof. split; simpl; constructor. Qed.

Lemma filter_id_ne_absent (i : Z) (l : list User) :
  (∀ u, u ∈ l → id u ≠ i) → filter (λ u, id u ≠ i) l = l.
Proof.
  induction l as [|u l IH]; intros H; [done|].
  rewrite filter_cons_True by (apply H; left).
  f_equal. apply IH. intros v Hv. apply H. by right.
Qed.

Lemma filter_id_ne_idemp (i : Z) (l : list User) :
  filter (λ u, id u ≠ i) (filter (λ u, id u ≠ i) l) = filter (λ u, id u ≠ i) l.
Proof.
  apply filter_id_ne_absent. intros u Hu.
  by apply list_elem_of_filter in Hu as [? _].
Qed.

(** A key without duplicates identifies its row. *)
Lemma NoDup_key_inj {A B : Type} (f : A → B) (l : list A) (x y : A) :
  NoDup (f <$> l) → x ∈ l → y ∈ l → f x = f y → x = y.
Proof.
  induction l as [|a l IH]; csimpl; [by intros _ ?%elem_of_nil|].
  intros [Hnin Hnd]%NoDup_cons [->|Hx]%elem_of_cons [->|Hy]%elem_of_cons Heq.
  - done.
  - exfalso. apply Hnin. rewrite Heq. by apply list_elem_of_fmap_2.
  - exfalso. apply Hnin. rewrite <- Heq. by apply list_elem_of_fmap_2.
  - by apply IH.
Qed.

(** The three outcomes of the insertion. *)
Lemma insert_returning_cases (now : Z) (n e : string) (ctx : Ctx) :
  let newId := id_seq (db ctx) + 1 in
  let tr := trace ctx ++ [INSERT_RETURNING n e] in
  (newId ∈ (id <$> rows (db ctx)) ∧
   insert_returning now n e ctx
   = (mkCtx (mkTable (rows (db ctx)) newId) tr,
      Err (ConstraintViolation users_pkey)))
  ∨ ((newId ∉ (id <$> rows (db ctx))) ∧ e ∈ (email <$> rows (db ctx)) ∧
     insert_returning now n e ctx
     = (mkCtx (mkTable (rows (db ctx)) newId) tr,
        Err (ConstraintViolation users_email_unique)))
  ∨ ((newId ∉ (id <$> rows (db ctx))) ∧ (e ∉ (email <$> rows (db ctx))) ∧
     insert_returning now n e ctx
     = (mkCtx (mkTable (rows (db ctx) ++ [mkUser newId n e now]) newId) tr,
        Ok [mkUser newId n e now])).
Proof.
  intros newId tr. unfold insert_returning. fold newId. fold tr.
  repeat case_bool_decide; naive_solver.
Qed.

(** * Properties of the parsers *)

Lemma min_1_nonempty (s : string) :
  zod.check_ok (zod.min 1 "Name is required") s = true ↔ s ≠ "".
Proof.
  destruct s; simpl; [naive_solver|]. split; [discriminate|done].
Qed.

(** * Properties of the router *)

Section router_properties.

Variable isEmail : string → bool.

Local Abbreviation create := (userRouter.create isEmail).
Local Abbreviation create_schema := (userRouter.create_schema isEmail).
Local Abbreviation delete := userRouter.delete.
Local Abbreviation getAll := userRouter.getAll.

(** *** The parser of [create] *)

(** What the parser of [create] answers on an object that carries both
    fields as strings. *)
Lemma create_schema_strings (o : gmap string json) (n e : string) :
  o !! "name" = Some (JStr n) → o !! "email" = Some (JStr e) →
  zod.safeParse create_schema (JObj o)
  = match bool_decide (n ≠ ""), isEmail e with
    | true, true => zod.success (mkCreateInput n e)
    | false, true =>
        zod.failure [zod.mkIssue zod.too_small ["name"] (Some "Name is required")]
    | true, false =>
        zod.failure
          [zod.mkIssue zod.invalid_string ["email"] (Some "Invalid email address")]
    | false, false =>
        zod.failure
          [zod.mkIssue zod.too_small ["name"] (Some "Name is required");
           zod.mkIssue zod.invalid_string ["email"] (Some "Invalid email address")]
    end.
Proof.
  intros Hn He.
  unfold zod.safeParse, userRouter.create_schema, zod.object2. simpl.
  rewrite Hn, He. unfold zod.string, zod.run_checks. simpl.
  destruct n as [|c n]; simpl; destruct (isEmail e); reflexivity.
Qed.

(** The parser accepts exactly the objects whose [name] is a string of
    at least one character and whose [email] is a string that passes
    the e-mail test. *)
Lemma create_schema_success (raw : json) (n e : string) :
  zod.safeParse create_schema raw = zod.success (mkCreateInput n e)
  ↔ ∃ o, raw = JObj o ∧ o !! "name" = Some (JStr n)
         ∧ o !! "email" = Some (JStr e) ∧ n ≠ "" ∧ isEmail e = true.
Proof.
  split.
  - unfold zod.safeParse, userRouter.create_schema, zod.object2.
    destruct raw as [| | | | |o]; try discriminate.
    intros H. exists o.
    unfold zod.string, zod.run_checks in H. simpl in H.
    destruct (o !! "name") as [[| | |n'| |]|]; simpl in H;
      destruct (o !! "email") as [[| | |e'| |]|]; simpl in H;
      try discriminate;
      try (destruct n'; simpl in H; discriminate).
    destruct n' as [|c n']; simpl in H;
      destruct (isEmail e') eqn:E; simpl in H; try discriminate.
    by simplify_eq.
  - intros (o & -> & Hn & He & Hne & Hok).
    rewrite (create_schema_strings o n e Hn He), Hok.
    by rewrite bool_decide_eq_true_2.
Qed.

(** *** [create], case by case *)

Lemma create_failure (now : Z) (raw : json) (ctx : Ctx) l :
  zod.safeParse create_schema raw = zod.failure l →
  create now raw ctx = (ctx, Err (ValidationError l)).
Proof. intros H. unfold userRouter.create, input. by rewrite H. Qed.

Lemma create_success (now : Z) (raw : json) (ctx : Ctx) i :
  zod.safeParse create_schema raw = zod.success i →
  create now raw ctx
  = match insert_returning now (input_name i) (input_email i) ctx with
    | (ctx', Ok returned) => (ctx', Ok (head returned))
    | (ctx', Err e) => (ctx', Err e)
    end.
Proof.
  intros H. unfold userRouter.create, input. rewrite H. unfold bind.
  by destruct (insert_returning _ _ _ _) as [ctx' [returned|e]].
Qed.

(** A call of [create] that answers [Ok] has parsed its input, found the
    next [id] and the e-mail free, appended one row and returned it. *)
Lemma create_Ok_inv (now : Z) (raw : json) (ctx ctx' : Ctx) r :
  create now raw ctx = (ctx', Ok r) →
  ∃ i, let u := mkUser (id_seq (db ctx) + 1) (input_name i) (input_email i) now in
    zod.safeParse create_schema raw = zod.success i
    ∧ (id u ∉ (id <$> rows (db ctx)))
    ∧ (email u ∉ (email <$> rows (db ctx)))
    ∧ r = Some u
    ∧ ctx' = mkCtx (mkTable (rows (db ctx) ++ [u]) (id u))
                   (trace ctx ++ [INSERT_RETURNING (name u) (email u)]).
Proof.
  intros H.
  destruct (zod.safeParse create_schema raw) as [i|l] eqn:Hp.
  - rewrite (create_success _ _ _ _ Hp) in H. exists i. simpl.
    destruct (insert_returning_cases now (input_name i) (input_email i) ctx)
      as [(_ & E)|[(_ & _ & E)|(Hid & Hem & E)]];
      rewrite E in H; simplify_eq; done.
  - rewrite (create_failure _ _ _ _ Hp) in H. discriminate.
Qed.

(** Whatever it answers, [create] leaves the rows as they are or appends
    one row carrying the next [id], and never moves the sequence back. *)
Lemma create_rows (now : Z) (raw : json) (ctx : Ctx) :
  let ctx' := fst (create now raw ctx) in
  id_seq (db ctx) ≤ id_seq (db ctx')
  ∧ (rows (db ctx') = rows (db ctx)
     ∨ ∃ u, rows (db ctx') = rows (db ctx) ++ [u]
            ∧ id u = id_seq (db ctx) + 1 ∧ id_seq (db ctx') = id u
            ∧ createdAt u = now
            ∧ (id u ∉ (id <$> rows (db ctx)))
            ∧ (email u ∉ (email <$> rows (db ctx)))).
Proof.
  simpl.
  destruct (zod.safeParse create_schema raw) as [i|l] eqn:Hp.
  - rewrite (create_success _ _ _ _ Hp).
    destruct (insert_returning_cases now (input_name i) (input_email i) ctx)
      as [(_ & E)|[(_ & _ & E)|(Hid & Hem & E)]];
      rewrite E; simpl; (split; [lia|]); [by left|by left|].
    right. eexists. split; [done|]. by simpl.
  - rewrite (create_failure _ _ _ _ Hp). simpl. split; [lia|by left].
Qed.

(** *** [delete] and [getAll], as equations *)

Lemma delete_request_eq (i : Z) (ctx : Ctx) :
  int4 i →
  delete (delete_request i) ctx
  = (mkCtx (mkTable (filter (λ u, id u ≠ i) (rows (db ctx))) (id_seq (db ctx)))
           (trace ctx ++ [DELETE_WHERE_id (inject_Z i)]),
     Ok (mkDeleteResponse true)).
Proof.
  intros Hi. unfold userRouter.delete, input.
  change (zod.safeParse userRouter.delete_schema (delete_request i))
    with (zod.success (mkDeleteInput (inject_Z i))).
  unfold bind, delete_where_id. cbn [input_id].
  by rewrite int_of_number_inject_Z.
Qed.

(** An [id] outside the range of the column passes the parser and is
    refused by the store: the call fails and the table is as it was. *)
Lemma delete_request_refused (i : Z) (ctx : Ctx) :
  ¬ int4 i →
  delete (delete_request i) ctx
  = (mkCtx (db ctx) (trace ctx ++ [DELETE_WHERE_id (inject_Z i)]),
     Err DataException).
Proof.
  intros Hi. unfold userRouter.delete, input.
  change (zod.safeParse userRouter.delete_schema (delete_request i))
    with (zod.success (mkDeleteInput (inject_Z i))).
  unfold bind, delete_where_id. cbn [input_id].
  by rewrite int_of_number_out_of_range.
Qed.

(** Whatever its input, [delete] keeps a sublist of the rows and does
    not touch the sequence. *)
Lemma delete_rows (raw : json) (ctx : Ctx) :
  let ctx' := fst (delete raw ctx) in
  id_seq (db ctx') = id_seq (db ctx)
  ∧ (rows (db ctx') = rows (db ctx)
     ∨ ∃ i, rows (db ctx') = filter (λ u, id u ≠ i) (rows (db ctx))).
Proof.
  simpl. unfold userRouter.delete, input, bind, delete_where_id.
  destruct (zod.safeParse _ raw) as [d|l]; simpl; [|by auto].
  destruct (int_of_number (input_id d)) as [i|]; simpl; [|by auto].
  split; [done|]. right. by exists i.
Qed.

Lemma getAll_db (ctx : Ctx) : db (fst (getAll ctx)) = db ctx.
Proof. reflexivity. Qed.

Lemma getAll_eq (ctx : Ctx) :
  snd (getAll ctx) = Ok (merge_sort createdAt_le (rows (db ctx))).
Proof. reflexivity. Qed.

(** *** The invariants of the table *)

Lemma create_wf (now : Z) (raw : json) (ctx : Ctx) :
  wf (db ctx) → wf (db (fst (create now raw ctx))).
Proof.
  intros [Hid Hem Hseq].
  destruct (create_rows now raw ctx) as [Hle [E|(u & E & Hu & Es & _ & Hfid & Hfem)]].
  - split; rewrite E; [done|done|].
    eapply Forall_impl; [exact Hseq|]. simpl. intros. lia.
  - split; rewrite E.
    + rewrite fmap_app. apply NoDup_app. split; [done|]. split.
      * intros x Hx ->%list_elem_of_singleton. by apply Hfid.
      * apply NoDup_singleton.
    + rewrite fmap_app. apply NoDup_app. split; [done|]. split.
      * intros x Hx ->%list_elem_of_singleton. by apply Hfem.
      * apply NoDup_singleton.
    + apply Forall_app. split.
      * eapply Forall_impl; [exact Hseq|]. simpl. intros. lia.
      * apply Forall_singleton. lia.
Qed.

Lemma delete_wf (raw : json) (ctx : Ctx) :
  wf (db ctx) → wf (db (fst (delete raw ctx))).
Proof.
  intros [Hid Hem Hseq].
  destruct (delete_rows raw ctx) as [Es [E|[i E]]].
  - split; rewrite E; [done|done|]. by rewrite Es.
  - split; rewrite E.
    + eapply sublist_NoDup; [exact Hid|]. apply fmap_sublist, sublist_filter.
    + eapply sublist_NoDup; [exact Hem|]. apply fmap_sublist, sublist_filter.
    + rewrite Es. rewrite Forall_forall in Hseq |- *.
      intros u [_ Hu]%list_elem_of_filter. by apply Hseq.
Qed.

Lemma step_wf (c : Call) (ctx : Ctx) :
  wf (db ctx) → wf (db (step isEmail ctx c)).
Proof.
  destruct c; simpl; [done|apply create_wf|apply delete_wf].
Qed.

Lemma run_wf (calls : list Call) (ctx : Ctx) :
  wf (db ctx) → wf (db (run isEmail calls ctx)).
Proof.
  revert ctx. induction calls as [|c calls IH]; intros ctx H; [done|].
  apply IH, step_wf, H.
Qed.

(** *** [create]: uniqueness of the e-mail *)



(** *** [create]: rejection of the input *)

(** C3. An input whose [name] is the empty string or whose [email] fails
    the e-mail test is answered with [ValidationError]; the error
    carries an issue for each offending field, with the field as its
    path and the message of the schema; the context is returned as it
    was: no row is added and no statement reaches the store. *)
Theorem create_invalid_input (now : Z) (ctx : Ctx) (o : gmap string json)
    (n e : string) :
  o !! "name" = Some (JStr n) → o !! "email" = Some (JStr e) →
  n = "" ∨ isEmail e = false →
  ∃ issues,
    create now (JObj o) ctx = (ctx, Err (ValidationError issues))
    ∧ issues ≠ []
    ∧ (∀ x, x ∈ issues →
         (zod.path x = ["name"] ∨ zod.path x = ["email"])
         ∧ is_Some (zod.message x))
    ∧ (n = "" →
         zod.mkIssue zod.too_small ["name"] (Some "Name is required") ∈ issues)
    ∧ (isEmail e = false →
         zod.mkIssue zod.invalid_string ["email"] (Some "Invalid email address")
         ∈ issues).
Proof.
  intros Hn He Hbad.
  pose proof (create_schema_strings o n e Hn He) as Hp.
  destruct (bool_decide (n ≠ "")) eqn:Bn; destruct (isEmail e) eqn:Be.
  - apply bool_decide_eq_true in Bn. by destruct Hbad.
  - eexists. split; [by apply create_failure|].
    split; [done|]. split; [|split].
    + intros x ->%list_elem_of_singleton. simpl. eauto.
    + intros ->. by apply bool_decide_eq_true in Bn.
    + intros _. by left.
  - eexists. split; [by apply create_failure|].
    split; [done|]. split; [|split].
    + intros x ->%list_elem_of_singleton. simpl. eauto.
    + intros _. by left.
    + done.
  - eexists. split; [by apply create_failure|].
    split; [done|]. split; [|split].
    + intros x [->|[->|[]%elem_of_nil]%elem_of_cons]%elem_of_cons; simpl; eauto.
    + intros _. by left.
    + intros _. right. by left.
Qed.

(** *** [create]: the returned record *)

(** C8. A [create] call that succeeds returns the record it has stored:
    the submitted [name] and [email], the [id] drawn from the sequence
    and the [createdAt] read from the clock.  The [id] was not in use,
    and a [getAll] that follows lists this very record, and no other
    record under its [id]. *)
Theorem create_returns_created (now : Z) (raw : json) (ctx ctx' : Ctx)
    (r : option User) :
  wf (db ctx) →
  create now raw ctx = (ctx', Ok r) →
  ∃ i u listed,
    zod.safeParse create_schema raw = zod.success i
    ∧ r = Some u
    ∧ u = mkUser (id_seq (db ctx) + 1) (input_name i) (input_email i) now
    ∧ (id u ∉ (id <$> rows (db ctx)))
    ∧ snd (getAll ctx') = Ok listed
    ∧ u ∈ listed
    ∧ (∀ v, v ∈ listed → id v = id u → v = u).
Proof.
  intros Hwf H.
  pose proof (create_wf now raw ctx Hwf) as Hwf'. rewrite H in Hwf'. simpl in Hwf'.
  apply create_Ok_inv in H as (i & Hp & Hfid & _ & -> & ->).
  eexists i, _, _. split; [done|]. split; [done|]. split; [done|].
  split; [done|]. split; [apply getAll_eq|]. simpl in *.
  split.
  - rewrite merge_sort_Permutation. apply elem_of_app. right. by left.
  - intros v Hv Hvid. rewrite merge_sort_Permutation in Hv.
    destruct Hwf' as [Hnd _ _]. simpl in Hnd.
    eapply (NoDup_key_inj id); [exact Hnd|exact Hv| |exact Hvid].
    apply elem_of_app. right. by left.
Qed.

(** *** [create]: the length of the name *)

(** C2, as the code has it.  The parser of [create] does not trim: a
    [name] is accepted exactly when it has at least one character,
    whatever the characters.  With an e-mail that passes, a non-empty
    name reaches the store; the empty name is answered with
    [ValidationError] "Name is required" and the context is untouched. *)
Theorem create_name_min_length (now : Z) (ctx : Ctx) (o : gmap string json)
    (n e : string) :
  o !! "name" = Some (JStr n) → o !! "email" = Some (JStr e) →
  isEmail e = true →
  (zod.safeParse create_schema (JObj o) = zod.success (mkCreateInput n e)
   ↔ (1 ≤ String.length n)%nat)
  ∧ ((1 ≤ String.length n)%nat →
       trace (fst (create now (JObj o) ctx))
       = trace ctx ++ [INSERT_RETURNING n e])
  ∧ (n = "" →
       create now (JObj o) ctx
       = (ctx, Err (ValidationError
            [zod.mkIssue zod.too_small ["name"] (Some "Name is required")]))).
Proof.
  intros Hn He Hok.
  assert ((1 ≤ String.length n)%nat ↔ n ≠ "") as Hlen.
  { destruct n; simpl; split; (done || lia). }
  pose proof (create_schema_strings o n e Hn He) as Hp. rewrite Hok in Hp.
  split; [|split].
  - rewrite Hlen. rewrite create_schema_success. split.
    + by intros (o' & _ & _ & _ & ? & _).
    + intros Hne. by exists o.
  - intros Hne%Hlen. rewrite bool_decide_eq_true_2 in Hp by done.
    rewrite (create_success _ _ _ _ Hp). simpl.
    by destruct (insert_returning_cases now n e ctx)
      as [(_ & ->)|[(_ & _ & ->)|(_ & _ & ->)]].
  - intros ->. by apply create_failure.
Qed.

(** *** [delete] *)

(** C5, as the code has it.  For an [id] in the range of the column
    (a 32-bit signed integer): deleting an [id] that no row carries
    answers [{success: true}] and leaves the table as it was; deleting
    the same [id] twice answers [{success: true}] both times, and the
    second call changes nothing. *)
Theorem delete_idempotent (i : Z) (ctx : Ctx) :
  int4 i →
  ((∀ u, u ∈ rows (db ctx) → id u ≠ i) →
     snd (delete (delete_request i) ctx) = Ok (mkDeleteResponse true)
     ∧ db (fst (delete (delete_request i) ctx)) = db ctx)
  ∧ (let '(ctx1, r1) := delete (delete_request i) ctx in
     let '(ctx2, r2) := delete (delete_request i) ctx1 in
     r1 = Ok (mkDeleteResponse true)
     ∧ r2 = Ok (mkDeleteResponse true)
     ∧ db ctx2 = db ctx1).
Proof.
  intros Hi. split.
  - intros Habsent. rewrite delete_request_eq by done. simpl. split; [done|].
    rewrite filter_id_ne_absent by done. by destruct (db ctx).
  - rewrite !delete_request_eq by done. simpl.
    by rewrite filter_id_ne_idemp.
Qed.

(** C10. In a table whose [id]s are values of the column, [delete]
    removes the rows whose [id] is the given one and nothing else,
    whatever the given [id]: the table afterwards is the table before
    without those rows, every other row is kept as it was and in its
    place, and the sequence is not touched. *)
Theorem delete_frame (i : Z) (ctx : Ctx) :
  Forall (λ u, int4 (id u)) (rows (db ctx)) →
  let ctx' := fst (delete (delete_request i) ctx) in
  rows (db ctx') = filter (λ u, id u ≠ i) (rows (db ctx))
  ∧ (∀ u, u ∈ rows (db ctx') ↔ u ∈ rows (db ctx) ∧ id u ≠ i)
  ∧ id_seq (db ctx') = id_seq (db ctx).
Proof.
  intros Hcol. simpl.
  assert (rows (db (fst (delete (delete_request i) ctx)))
          = filter (λ u, id u ≠ i) (rows (db ctx))
          ∧ id_seq (db (fst (delete (delete_request i) ctx)))
            = id_seq (db ctx)) as [Hrows Hseq].
  { destruct (decide (int4 i)) as [Hi|Hi].
    - by rewrite delete_request_eq.
    - rewrite delete_request_refused by done. simpl. split; [|done].
      rewrite filter_id_ne_absent; [done|].
      intros u Hu Heq. rewrite Forall_forall in Hcol.
      apply Hi. rewrite <- Heq. by apply Hcol. }
  split; [done|]. split; [|done].
  intros u. rewrite Hrows, list_elem_of_filter. tauto.
Qed.

(** C6, as the code has it.  The parser of [delete] accepts exactly the
    objects whose [id] is a number, whole or not; what it does not
    accept is answered with [ValidationError] and the context is
    untouched; an accepted [id] that is a whole number in the range of
    the column is answered with [{success: true}]. *)
Theorem delete_input_number (raw : json) (ctx : Ctx) :
  ((∃ d, zod.safeParse userRouter.delete_schema raw = zod.success d)
   ↔ ∃ o q, raw = JObj o ∧ o !! "id" = Some (JNum q))
  ∧ ((∀ d, zod.safeParse userRouter.delete_schema raw ≠ zod.success d) →
       ∃ issues, delete raw ctx = (ctx, Err (ValidationError issues)))
  ∧ (∀ d i, zod.safeParse userRouter.delete_schema raw = zod.success d →
       (input_id d == inject_Z i)%Q → int4 i →
       snd (delete raw ctx) = Ok (mkDeleteResponse true)).
Proof.
  split; [|split].
  - unfold zod.safeParse, userRouter.delete_schema, zod.object1, zod.number.
    split.
    + intros [d H]. destruct raw as [| | | | |o]; try discriminate.
      destruct (o !! "id") as [[| |q| | |]|] eqn:E; try discriminate.
      by exists o, q.
    + intros (o & q & -> & E). simpl. rewrite E. eauto.
  - intros Hno. unfold userRouter.delete, input.
    destruct (zod.safeParse _ raw) as [d|l]; [by destruct (Hno d)|eauto].
  - intros d i Hp Hq Hi. unfold userRouter.delete, input. rewrite Hp.
    unfold bind, delete_where_id, int_of_number.
    rewrite (Qred_complete _ _ Hq), Qred_inject_Z. simpl.
    by rewrite decide_True.
Qed.

(** *** No procedure updates a row *)

(** One call keeps what is known of a record [u]: the sequence stays
    past its [id], and a row under its [id] is [u] itself. *)
Lemma step_keeps (c : Call) (ctx : Ctx) (u : User) :
  id u ≤ id_seq (db ctx) →
  (∀ v, v ∈ rows (db ctx) → id v = id u → v = u) →
  id u ≤ id_seq (db (step isEmail ctx c))
  ∧ (∀ v, v ∈ rows (db (step isEmail ctx c)) → id v = id u → v = u).
Proof.
  intros Hseq Hsame. destruct c as [|now raw|raw]; simpl.
  - done.
  - destruct (create_rows now raw ctx) as [Hle [E|(w & E & Hw & Es & _)]];
      simpl in *.
    + split; [lia|]. by rewrite E.
    + split; [lia|]. rewrite E.
      intros v [Hv| ->%list_elem_of_singleton]%elem_of_app Hid; [by apply Hsame|].
      lia.
  - destruct (delete_rows raw ctx) as [Es [E|[i E]]]; simpl in *.
    + split; [lia|]. by rewrite E.
    + split; [lia|]. rewrite E.
      intros v [_ Hv]%list_elem_of_filter. by apply Hsame.
Qed.

(** C9. Take a User stored in a table that satisfies the schema and run
    any sequence of [getAll], [create] and [delete] calls, with any
    inputs.  Whatever row the table then holds under the User's [id] is
    the User as it was: same [id], [name], [email] and [createdAt]. *)
Theorem user_never_updated (calls : list Call) (ctx : Ctx) (u : User) :
  wf (db ctx) → u ∈ rows (db ctx) →
  ∀ v, v ∈ rows (db (run isEmail calls ctx)) → id v = id u →
    v = u
    ∧ name v = name u ∧ email v = email u ∧ createdAt v = createdAt u.
Proof.
  intros [Hid _ Hseq] Hu.
  assert (id u ≤ id_seq (db ctx)) as Hle.
  { rewrite Forall_forall in Hseq. by apply Hseq. }
  assert (∀ v, v ∈ rows (db ctx) → id v = id u → v = u) as Hsame.
  { intros v Hv Hvid. by apply (NoDup_key_inj id (rows (db ctx))). }
  clear Hid Hseq Hu. revert ctx Hle Hsame.
  induction calls as [|c calls IH]; intros ctx Hle Hsame v Hv Hvid.
  - by rewrite (Hsame v Hv Hvid).
  - destruct (step_keeps c ctx u Hle Hsame) as [Hle' Hsame'].
    by apply (IH (step isEmail ctx c)).
Qed.

(** *** [getAll] after a sequence of [create] calls *)

#[local] Instance createdAt_le_trans : Transitive createdAt_le.
Proof. unfold createdAt_le. intros x y z ??. lia. Qed.

#[local] Instance createdAt_le_total : Total createdAt_le.
Proof. unfold createdAt_le. intros x y. lia. Qed.

(** The rows after the calls are the rows before followed by the
    records the calls returned. *)
Lemma creates_rows (calls : list (Z * json)) (ctx : Ctx) :
  rows (db (fst (creates isEmail calls ctx)))
  = rows (db ctx) ++ snd (creates isEmail calls ctx).
Proof.
  revert ctx. induction calls as [|[now raw] calls IH]; intros ctx; simpl.
  - by rewrite app_nil_r.
  - destruct (create now raw ctx) as [ctx1 r] eqn:E.
    specialize (IH ctx1).
    destruct (creates isEmail calls ctx1) as [ctx2 us]. simpl in *.
    rewrite IH.
    destruct r as [[u|]|e].
    + apply create_Ok_inv in E as (i & _ & _ & _ & ? & ->). simplify_eq.
      simpl. by rewrite <- app_assoc.
    + by apply create_Ok_inv in E as (i & _ & _ & _ & ? & _).
    + pose proof (create_rows now raw ctx) as [_ Hr]. rewrite E in Hr.
      simpl in Hr. destruct Hr as [->|(u & Hr & _)]; [done|].
      exfalso.
      destruct (zod.safeParse create_schema raw) as [i|l] eqn:Hp.
      * rewrite (create_success _ _ _ _ Hp) in E.
        destruct (insert_returning_cases now (input_name i) (input_email i) ctx)
          as [(_ & E')|[(_ & _ & E')|(_ & _ & E')]];
          rewrite E' in E; simplify_eq; simpl in Hr;
          apply (f_equal length) in Hr; rewrite length_app in Hr;
          simpl in Hr; lia.
      * rewrite (create_failure _ _ _ _ Hp) in E. simplify_eq.
        apply (f_equal length) in Hr; rewrite length_app in Hr;
          simpl in Hr; lia.
Qed.

(** Each returned record carries the clock reading of its call, so a
    clock that moves forward orders the returned records strictly. *)
Lemma creates_clock (calls : list (Z * json)) (ctx : Ctx) :
  Forall (λ u, createdAt u ∈ calls.*1) (snd (creates isEmail calls ctx))
  ∧ (StronglySorted Z.lt calls.*1 →
     StronglySorted (λ u v, createdAt u < createdAt v)
                    (snd (creates isEmail calls ctx))).
Proof.
  revert ctx. induction calls as [|[now raw] calls IH]; intros ctx; simpl.
  - split; constructor.
  - destruct (create now raw ctx) as [ctx1 r] eqn:E.
    destruct (IH ctx1) as [IHin IHsorted].
    destruct (creates isEmail calls ctx1) as [ctx2 us]. simpl in *.
    assert (Forall (λ u, createdAt u ∈ now :: calls.*1) us) as Hus.
    { eapply Forall_impl; [exact IHin|]. simpl. intros. by right. }
    destruct r as [[u|]|e]; simpl.
    + apply create_Ok_inv in E as (i & _ & _ & _ & ? & _). simplify_eq.
      split.
      * constructor; [by left|done].
      * intros [Hs Hnow]%StronglySorted_inv. constructor; [by apply IHsorted|].
        simpl. rewrite Forall_forall in IHin. rewrite Forall_forall in Hnow.
        rewrite Forall_forall. intros v Hv. by apply Hnow, IHin.
    + split; [done|]. intros [Hs _]%StronglySorted_inv. by apply IHsorted.
    + split; [done|]. intros [Hs _]%StronglySorted_inv. by apply IHsorted.
Qed.

(** C4, as the code has it.  After any sequence of [create] calls on the
    empty store,
    [getAll] answers with every stored User, none left out and none
    twice, in non-decreasing order of [createdAt]; the stored Users are
    the records the calls returned; and when the clock moved forward
    from one call to the next, the answer lists them in the order of
    their insertion. *)
Theorem getAll_after_creates (calls : list (Z * json)) :
  let ctx := fst (creates isEmail calls empty_ctx) in
  let created := snd (creates isEmail calls empty_ctx) in
  ∃ listed,
    snd (getAll ctx) = Ok listed
    ∧ listed ≡ₚ rows (db ctx)
    ∧ rows (db ctx) = created
    ∧ StronglySorted createdAt_le listed
    ∧ (StronglySorted Z.lt calls.*1 → listed = created).
Proof.
  simpl. eexists. split; [apply getAll_eq|].
  pose proof (creates_rows calls empty_ctx) as Hrows. simpl in Hrows.
  split; [apply merge_sort_Permutation|]. split; [done|].
  split; [apply (StronglySorted_merge_sort _)|].
  intros Hclock. rewrite Hrows.
  destruct (creates_clock calls empty_ctx) as [_ Hsorted].
  specialize (Hsorted Hclock).
  set (created := snd (creates isEmail calls empty_ctx)) in *.
  apply (StronglySorted_unique_strong createdAt_le).
  - intros x y Hx Hy Hxy Hyx. rewrite merge_sort_Permutation in Hx.
    unfold createdAt_le in *.
    assert (createdAt x = createdAt y) as Heq by lia.
    clear -Hsorted Hx Hy Heq.
    induction Hsorted as [|a l Hl IH Ha]; [by apply elem_of_nil in Hx|].
    rewrite Forall_forall in Ha.
    apply elem_of_cons in Hx as [->|Hx]; apply elem_of_cons in Hy as [->|Hy].
    + done.
    + specialize (Ha y Hy). lia.
    + specialize (Ha x Hx). lia.
    + by apply IH.
  - apply (StronglySorted_merge_sort _).
  - clear -Hsorted. induction Hsorted as [|a l Hl IH Ha]; constructor; [done|].
    eapply Forall_impl; [exact Ha|]. unfold createdAt_le. simpl. intros. lia.
  - apply merge_sort_Permutation.
Qed.

End router_properties.

(** * The e-mail pattern and the shape of the specification *)

Lemma split_not_nil (sep : ascii) (s : list ascii) : emailRegex.split sep s ≠ [].
Proof.
  destruct s as [|c s]; simpl; [done|].
  destruct (Ascii.eqb c sep); [done|].
  by destruct (emailRegex.split sep s).
Qed.

Lemma split_one (sep : ascii) (s d : list ascii) :
  emailRegex.split sep s = [d] → s = d.
Proof.
  revert d. induction s as [|c s IH]; intros d; simpl.
  - by intros [= <-].
  - destruct (Ascii.eqb c sep).
    + intros [= _ H]. by destruct (split_not_nil sep s).
    + destruct (emailRegex.split sep s) as [|piece pieces] eqn:E;
        [by destruct (split_not_nil sep s)|].
      intros [= <- ->]. by rewrite (IH piece).
Qed.

Lemma split_two (sep : ascii) (s l d : list ascii) :
  emailRegex.split sep s = [l; d] → s = l ++ sep :: d.
Proof.
  revert l. induction s as [|c s IH]; intros l; simpl; [done|].
  destruct (Ascii.eqb c sep) eqn:Ec.
  - apply Ascii.eqb_eq in Ec as ->.
    intros [= <- H]. by rewrite (split_one _ _ _ H).
  - destruct (emailRegex.split sep s) as [|piece pieces] eqn:E; [done|].
    intros [= <- ->]. by rewrite (IH piece).
Qed.

Lemma split_without_sep (sep : ascii) (s : list ascii) :
  sep ∉ s → emailRegex.split sep s = [s].
Proof.
  induction s as [|c s IH]; simpl; [done|].
  intros [Hc Hs]%not_elem_of_cons.
  destruct (Ascii.eqb c sep) eqn:Ec; [by apply Ascii.eqb_eq in Ec|].
  by rewrite IH.
Qed.

Lemma domain_ok_has_dot (d : list ascii) :
  emailRegex.domain_ok d = true → "."%char ∈ d.
Proof.
  intros H. destruct (decide ("."%char ∈ d)) as [|Hno]; [done|].
  unfold emailRegex.domain_ok in H.
  by rewrite (split_without_sep _ _ Hno) in H.
Qed.

Lemma local_ok_not_nil (l : list ascii) : emailRegex.local_ok l = true → l ≠ [].
Proof. by intros H ->. Qed.

(** What the pattern accepts has the shape of the specification. *)
Lemma test_email_shape (s : string) :
  emailRegex.test s = true → email_shape s.
Proof.
  unfold emailRegex.test, email_shape.
  intros [_ H]%andb_prop.
  destruct (emailRegex.split "@" (list_ascii_of_string s))
    as [|l [|d [|]]] eqn:E; try done.
  apply andb_prop in H as [Hl Hd].
  exists l, d. split; [by apply split_two|].
  split; [by apply local_ok_not_nil|by apply domain_ok_has_dot].
Qed.

(** C7, as the code has it.  With a name that passes, [create] accepts
    an e-mail exactly when the e-mail pattern of the library matches it.
    What it accepts has a non-empty local part, an [@] and a domain with
    a dot, and reaches the store; what the pattern does not match is
    answered with [ValidationError] "Invalid email address" and the
    context is untouched. *)
Theorem create_email_pattern (now : Z) (ctx : Ctx) (o : gmap string json)
    (n e : string) :
  o !! "name" = Some (JStr n) → o !! "email" = Some (JStr e) → n ≠ "" →
  (zod.safeParse (userRouter.create_schema emailRegex.test) (JObj o)
   = zod.success (mkCreateInput n e)
   ↔ emailRegex.test e = true)
  ∧ (emailRegex.test e = true →
       email_shape e
       ∧ trace (fst (userRouter.create emailRegex.test now (JObj o) ctx))
         = trace ctx ++ [INSERT_RETURNING n e])
  ∧ (emailRegex.test e = false →
       userRouter.create emailRegex.test now (JObj o) ctx
       = (ctx, Err (ValidationError
            [zod.mkIssue zod.invalid_string ["email"]
               (Some "Invalid email address")]))).
Proof.
  intros Hn He Hne.
  pose proof (create_schema_strings emailRegex.test o n e Hn He) as Hp.
  rewrite bool_decide_eq_true_2 in Hp by done.
  split; [|split].
  - rewrite create_schema_success. split.
    + by intros (o' & _ & _ & _ & _ & ?).
    + intros Hok. by exists o.
  - intros Hok. split; [by apply test_email_shape|].
    rewrite Hok in Hp. rewrite (create_success _ _ _ _ _ Hp). simpl.
    by destruct (insert_returning_cases now n e ctx)
      as [(_ & ->)|[(_ & _ & ->)|(_ & _ & ->)]].
  - intros Hbad. rewrite Hbad in Hp. by apply create_failure.
Qed.

(** * The scenarios of the specification, evaluated *)

Example scenario_create :
  userRouter.create emailRegex.test 10 (create_request "Ada" "ada@x.com")
    empty_ctx
  = (ctx_ada, Ok (Some ada)).
Proof. vm_compute; reflexivity. Qed.

Example scenario_duplicate :
  userRouter.create emailRegex.test 20 (create_request "Ada2" "ada@x.com")
    ctx_ada
  = (mkCtx (mkTable [ada] 2)
           [INSERT_RETURNING "Ada" "ada@x.com";
            INSERT_RETURNING "Ada2" "ada@x.com"],
     Err (ConstraintViolation users_email_unique)).
Proof. vm_compute; reflexivity. Qed.

(** The unique index compares the e-mails character by character:
    another capitalisation is another e-mail. *)
Example scenario_other_case :
  userRouter.create emailRegex.test 20 (create_request "Ada2" "Ada@x.com")
    ctx_ada
  = (mkCtx (mkTable [ada; mkUser 2 "Ada2" "Ada@x.com" 20] 2)
           [INSERT_RETURNING "Ada" "ada@x.com";
            INSERT_RETURNING "Ada2" "Ada@x.com"],
     Ok (Some (mkUser 2 "Ada2" "Ada@x.com" 20))).
Proof. vm_compute; reflexivity. Qed.

Example scenario_empty_name :
  userRouter.create emailRegex.test 20 (create_request "" "b@x.com") ctx_ada
  = (ctx_ada,
     Err (ValidationError
       [zod.mkIssue zod.too_small ["name"] (Some "Name is required")])).
Proof. vm_compute; reflexivity. Qed.

Example scenario_delete :
  let '(ctx, r) := userRouter.delete (delete_request 1) ctx_ada in
  r = Ok (mkDeleteResponse true)
  ∧ snd (userRouter.getAll ctx) = Ok [].
Proof. vm_compute. split; reflexivity. Qed.

Example scenario_delete_absent :
  let '(ctx, r) := userRouter.delete (delete_request 999) ctx_ada in
  r = Ok (mkDeleteResponse true)
  ∧ snd (userRouter.getAll ctx) = Ok [ada].
Proof. vm_compute. split; reflexivity. Qed.

Example emailRegex_samples :
  map emailRegex.test
    ["ada@x.com"; "A'b+c@Sub.Example.ORG"; "a@x-.com";
     "a@b.c"; "a&b@example.com"; ".a@x.com"; "a..b@x.com"; "a.@x.com";
     "a@x"; "a@-x.com"; "a@b@c.com"; "a@x.c0m"; "a b@x.com"; ""]
  = [true; true; true;
     false; false; false; false; false;
     false; false; false; false; false; false].
Proof. vm_compute; reflexivity. Qed.

(** * The claims that fail as stated *)


(** C4 does not hold as stated: [getAll] orders by [createdAt], and
    when the clock of the store went back between two insertions the
    row inserted later is listed first. *)
Lemma getAll_not_insertion_order :
  let calls := [(20, create_request "Ada" "ada@x.com");
                (10, create_request "Bob" "bob@x.com")] in
  snd (creates emailRegex.test calls empty_ctx)
  = [mkUser 1 "Ada" "ada@x.com" 20; mkUser 2 "Bob" "bob@x.com" 10]
  ∧ rows (db (fst (creates emailRegex.test calls empty_ctx)))
    = [mkUser 1 "Ada" "ada@x.com" 20; mkUser 2 "Bob" "bob@x.com" 10]
  ∧ snd (userRouter.getAll (fst (creates emailRegex.test calls empty_ctx)))
    = Ok [mkUser 2 "Bob" "bob@x.com" 10; mkUser 1 "Ada" "ada@x.com" 20].
Proof. repeat split; vm_compute; reflexivity. Qed.

(** C5 does not hold as stated: the [id] 2147483648 is an integer that
    no row carries; it passes the parser, the store refuses it as a
    value of the column, and the call fails. *)
Lemma delete_absent_id_out_of_range :
  (∀ u, u ∈ rows (db ctx_ada) → id u ≠ 2147483648)
  ∧ zod.safeParse userRouter.delete_schema (delete_request 2147483648)
    = zod.success (mkDeleteInput (inject_Z 2147483648))
  ∧ userRouter.delete (delete_request 2147483648) ctx_ada
    = (mkCtx (db ctx_ada)
             (trace ctx_ada ++ [DELETE_WHERE_id (inject_Z 2147483648)]),
       Err DataException).
Proof.
  split; [|split].
  - intros u ->%list_elem_of_singleton. discriminate.
  - reflexivity.
  - apply delete_request_refused. unfold int4. lia.
Qed.

(** C2 does not hold as stated: the name of one blank is empty after
    trimming, and [create] stores it. *)
Lemma create_accepts_blank_name :
  trim " " = ""
  ∧ userRouter.create emailRegex.test 10 (create_request " " "ada@x.com")
      empty_ctx
    = (mkCtx (mkTable [mkUser 1 " " "ada@x.com" 10] 1)
             [INSERT_RETURNING " " "ada@x.com"],
       Ok (Some (mkUser 1 " " "ada@x.com" 10))).
Proof. split; vm_compute; reflexivity. Qed.

(** C6 does not hold as stated: the parser of [delete] accepts the
    number 1.5, which is no integer, and the statement is sent to the
    store. *)
Lemma delete_accepts_fraction :
  zod.safeParse userRouter.delete_schema fraction_request
  = zod.success (mkDeleteInput (3 # 2))
  ∧ (∀ i : Z, ¬ (3 # 2 == inject_Z i)%Q)
  ∧ trace (fst (userRouter.delete fraction_request empty_ctx))
    = [DELETE_WHERE_id (3 # 2)].
Proof.
  split; [reflexivity|]. split; [|reflexivity].
  intros i. unfold Qeq. simpl. lia.
Qed.

(** C7 does not hold as stated: [a@b.c] and [a&b@example.com] have a
    local part, an [@] and a domain with a dot, and [create] rejects
    both. *)
Lemma create_rejects_shaped_email :
  (email_shape "a@b.c"
   ∧ userRouter.create emailRegex.test 10 (create_request "Ada" "a@b.c")
       empty_ctx
     = (empty_ctx,
        Err (ValidationError
          [zod.mkIssue zod.invalid_string ["email"]
             (Some "Invalid email address")])))
  ∧ (email_shape "a&b@example.com"
     ∧ userRouter.create emailRegex.test 10
         (create_request "Ada" "a&b@example.com") empty_ctx
       = (empty_ctx,
          Err (ValidationError
            [zod.mkIssue zod.invalid_string ["email"]
               (Some "Invalid email address")]))).
Proof.
  split; (split; [|vm_compute; reflexivity]).
  - exists ["a"%char], ["b"; "."; "c"]%char.
    split; [reflexivity|]. split; [done|]. set_solver.
  - exists ["a"; "&"; "b"]%char, (list_ascii_of_string "example.com").
    split; [reflexivity|]. split; [done|]. simpl. set_solver.
Qed.

(** * The theorems at the inputs of the scenarios *)


Lemma create_invalid_input_witness :
  ∃ issues,
    userRouter.create emailRegex.test 10 (create_request "" "b@x.com") empty_ctx
    = (empty_ctx, Err (ValidationError issues))
    ∧ issues ≠ []
    ∧ (∀ x, x ∈ issues →
         (zod.path x = ["name"] ∨ zod.path x = ["email"])
         ∧ is_Some (zod.message x))
    ∧ ("" = "" →
         zod.mkIssue zod.too_small ["name"] (Some "Name is required") ∈ issues)
    ∧ (emailRegex.test "b@x.com" = false →
         zod.mkIssue zod.invalid_string ["email"] (Some "Invalid email address")
         ∈ issues).
Proof.
  apply (create_invalid_input emailRegex.test 10 empty_ctx
           (<["name" := JStr ""]> (<["email" := JStr "b@x.com"]> ∅))
           "" "b@x.com").
  - vm_compute; reflexivity.
  - vm_compute; reflexivity.
  - left; reflexivity.
Defined.

Lemma create_returns_created_witness :
  ∃ i u listed,
    zod.safeParse (userRouter.create_schema emailRegex.test)
      (create_request "Ada" "ada@x.com") = zod.success i
    ∧ Some ada = Some u
    ∧ u = mkUser (id_seq (db empty_ctx) + 1) (input_name i) (input_email i) 10
    ∧ (id u ∉ (id <$> rows (db empty_ctx)))
    ∧ snd (userRouter.getAll ctx_ada) = Ok listed
    ∧ u ∈ listed
    ∧ (∀ v, v ∈ listed → id v = id u → v = u).
Proof.
  apply (create_returns_created emailRegex.test 10
           (create_request "Ada" "ada@x.com") empty_ctx ctx_ada (Some ada)).
  - split; simpl; constructor.
  - vm_compute; reflexivity.
Defined.

Lemma create_name_min_length_witness :
  (zod.safeParse (userRouter.create_schema emailRegex.test)
     (create_request " " "ada@x.com")
   = zod.success (mkCreateInput " " "ada@x.com")
   ↔ (1 ≤ String.length " ")%nat)
  ∧ ((1 ≤ String.length " ")%nat →
       trace (fst (userRouter.create emailRegex.test 10
                     (create_request " " "ada@x.com") empty_ctx))
       = trace empty_ctx ++ [INSERT_RETURNING " " "ada@x.com"])
  ∧ (" " = "" →
       userRouter.create emailRegex.test 10 (create_request " " "ada@x.com")
         empty_ctx
       = (empty_ctx, Err (ValidationError
            [zod.mkIssue zod.too_small ["name"] (Some "Name is required")]))).
Proof.
  apply (create_name_min_length emailRegex.test 10 empty_ctx
           (<["name" := JStr " "]> (<["email" := JStr "ada@x.com"]> ∅))
           " " "ada@x.com");
    vm_compute; reflexivity.
Defined.

Lemma delete_idempotent_witness :
  ((∀ u, u ∈ rows (db ctx_ada) → id u ≠ 999) →
     snd (userRouter.delete (delete_request 999) ctx_ada)
     = Ok (mkDeleteResponse true)
     ∧ db (fst (userRouter.delete (delete_request 999) ctx_ada)) = db ctx_ada)
  ∧ (let '(ctx1, r1) := userRouter.delete (delete_request 999) ctx_ada in
     let '(ctx2, r2) := userRouter.delete (delete_request 999) ctx1 in
     r1 = Ok (mkDeleteResponse true)
     ∧ r2 = Ok (mkDeleteResponse true)
     ∧ db ctx2 = db ctx1).
Proof. apply (delete_idempotent 999 ctx_ada). unfold int4. lia. Defined.

Lemma delete_input_number_witness :
  ((∃ d, zod.safeParse userRouter.delete_schema (delete_request 1)
         = zod.success d)
   ↔ ∃ o q, delete_request 1 = JObj o ∧ o !! "id" = Some (JNum q))
  ∧ ((∀ d, zod.safeParse userRouter.delete_schema (delete_request 1)
           ≠ zod.success d) →
       ∃ issues,
         userRouter.delete (delete_request 1) ctx_ada
         = (ctx_ada, Err (ValidationError issues)))
  ∧ (∀ d i,
       zod.safeParse userRouter.delete_schema (delete_request 1)
       = zod.success d →
       (input_id d == inject_Z i)%Q → int4 i →
       snd (userRouter.delete (delete_request 1) ctx_ada)
       = Ok (mkDeleteResponse true)).
Proof. exact (delete_input_number (delete_request 1) ctx_ada). Defined.

Lemma delete_frame_witness :
  Forall (λ u, int4 (id u)) (rows (db ctx_ada))
  ∧ rows (db (fst (userRouter.delete (delete_request 1) ctx_ada)))
    = filter (λ u, id u ≠ 1) (rows (db ctx_ada))
  ∧ (∀ u, u ∈ rows (db (fst (userRouter.delete (delete_request 1) ctx_ada)))
          ↔ u ∈ rows (db ctx_ada) ∧ id u ≠ 1)
  ∧ id_seq (db (fst (userRouter.delete (delete_request 1) ctx_ada)))
    = id_seq (db ctx_ada).
Proof.
  assert (Forall (λ u, int4 (id u)) (rows (db ctx_ada))) as Hcol.
  { simpl. apply Forall_singleton. unfold int4. simpl. lia. }
  split; [exact Hcol|].
  exact (delete_frame 1 ctx_ada Hcol).
Defined.

Lemma create_email_pattern_witness :
  (zod.safeParse (userRouter.create_schema emailRegex.test)
     (create_request "Ada" "ada@x.com")
   = zod.success (mkCreateInput "Ada" "ada@x.com")
   ↔ emailRegex.test "ada@x.com" = true)
  ∧ (emailRegex.test "ada@x.com" = true →
       email_shape "ada@x.com"
       ∧ trace (fst (userRouter.create emailRegex.test 10
                       (create_request "Ada" "ada@x.com") empty_ctx))
         = trace empty_ctx ++ [INSERT_RETURNING "Ada" "ada@x.com"])
  ∧ (emailRegex.test "ada@x.com" = false →
       userRouter.create emailRegex.test 10 (create_request "Ada" "ada@x.com")
         empty_ctx
       = (empty_ctx, Err (ValidationError
            [zod.mkIssue zod.invalid_string ["email"]
               (Some "Invalid email address")]))).
Proof.
  apply (create_email_pattern 10 empty_ctx
           (<["name" := JStr "Ada"]> (<["email" := JStr "ada@x.com"]> ∅))
           "Ada" "ada@x.com").
  - vm_compute; reflexivity.
  - vm_compute; reflexivity.
  - discriminate.
Defined.

Lemma user_never_updated_witness :
  wf (db ctx_ada)
  ∧ ada ∈ rows (db ctx_ada)
  ∧ ∀ v,
      v ∈ rows (db (run emailRegex.test
                      [CallCreate 20 (create_request "Ada2" "ada@x.com");
                       CallDelete (delete_request 7);
                       CallCreate 30 (create_request "Bob" "bob@x.com");
                       CallGetAll]
                      ctx_ada)) →
      id v = id ada →
      v = ada
      ∧ name v = name ada ∧ email v = email ada ∧ createdAt v = createdAt ada.
Proof.
  assert (wf (db ctx_ada)) as Hwf.
  { split; simpl.
    - apply NoDup_singleton.
    - apply NoDup_singleton.
    - repeat constructor. simpl. lia. }
  assert (ada ∈ rows (db ctx_ada)) as Hin by (simpl; left).
  split; [exact Hwf|]. split; [exact Hin|].
  exact (user_never_updated emailRegex.test
           [CallCreate 20 (create_request "Ada2" "ada@x.com");
            CallDelete (delete_request 7);
            CallCreate 30 (create_request "Bob" "bob@x.com");
            CallGetAll]
           ctx_ada ada Hwf Hin).
Defined.

Lemma getAll_after_creates_witness :
  let calls := [(10, create_request "Ada" "ada@x.com");
                (20, create_request "Ada2" "ada@x.com");
                (30, create_request "Bob" "bob@x.com")] in
  let ctx := fst (creates emailRegex.test calls empty_ctx) in
  let created := snd (creates emailRegex.test calls empty_ctx) in
  StronglySorted Z.lt calls.*1
  ∧ created = [ada; mkUser 3 "Bob" "bob@x.com" 30]
  ∧ ∃ listed,
      snd (userRouter.getAll ctx) = Ok listed
      ∧ listed ≡ₚ rows (db ctx)
      ∧ rows (db ctx) = created
      ∧ StronglySorted createdAt_le listed
      ∧ (StronglySorted Z.lt calls.*1 → listed = created).
Proof.
  intros calls ctx created.
  split; [repeat constructor; lia|].
  split; [vm_compute; reflexivity|].
  exact (getAll_after_creates emailRegex.test calls).
Defined.

(** * Further properties of the store *)

Lemma StronglySorted_filter {A : Type} (R : relation A) (P : A → Prop)
    `{∀ x, Decision (P x)} (l : list A) :
  StronglySorted R l → StronglySorted R (filter P l).
Proof.
  induction 1 as [|a l Hl IH Ha]; [constructor|].
  destruct (decide (P a)).
  - rewrite filter_cons_True by done. constructor; [done|].
    rewrite Forall_forall in Ha. rewrite Forall_forall.
    intros x [_ Hx]%list_elem_of_filter. by apply Ha.
  - by rewrite filter_cons_False.
Qed.

(** A list in strictly increasing order of [createdAt] is what the
    ordering of [getAll] returns for it. *)
Lemma merge_sort_createdAt_increasing (l : list User) :
  StronglySorted (λ u v, createdAt u < createdAt v) l →
  merge_sort createdAt_le l = l.
Proof.
  intros Hsorted.
  apply (StronglySorted_unique_strong createdAt_le).
  - intros x y Hx Hy Hxy Hyx. rewrite merge_sort_Permutation in Hx.
    unfold createdAt_le in *.
    assert (createdAt x = createdAt y) as Heq by lia.
    clear -Hsorted Hx Hy Heq.
    induction Hsorted as [|a l Hl IH Ha]; [by apply elem_of_nil in Hx|].
    rewrite Forall_forall in Ha.
    apply elem_of_cons in Hx as [->|Hx]; apply elem_of_cons in Hy as [->|Hy].
    + done.
    + specialize (Ha y Hy). lia.
    + specialize (Ha x Hx). lia.
    + by apply IH.
  - apply (@StronglySorted_merge_sort _ createdAt_le _ createdAt_le_trans
             createdAt_le_total).
  - clear -Hsorted. induction Hsorted as [|a l Hl IH Ha]; constructor; [done|].
    eapply Forall_impl; [exact Ha|]. unfold createdAt_le. simpl. intros. lia.
  - apply merge_sort_Permutation.
Qed.

(** With a key that has no duplicate, the filter on the key of a row
    takes out that row and no other. *)
Lemma filter_key_length (l : list User) (u : User) :
  NoDup (id <$> l) → u ∈ l →
  S (length (filter (λ v, id v ≠ id u) l)) = length l.
Proof.
  induction l as [|a l IH]; csimpl; [by intros _ ?%elem_of_nil|].
  intros [Hnin Hnd]%NoDup_cons [->|Hu]%elem_of_cons.
  - rewrite filter_cons_False by (intros ?; done).
    rewrite filter_id_ne_absent; [done|].
    intros v Hv Heq. apply Hnin. rewrite <- Heq. by apply list_elem_of_fmap_2.
  - rewrite filter_cons_True.
    + simpl. by rewrite IH.
    + intros Heq. apply Hnin. rewrite Heq. by apply list_elem_of_fmap_2.
Qed.

(** * Further properties of the parsers *)

Lemma string_failure_not_nil (checks : list zod.StringCheck) (p : list string)
    (v : option json) (l : list zod.ZodIssue) :
  zod.string checks p v = zod.failure l → l ≠ [].
Proof.
  unfold zod.string.
  destruct v as [[| | |s| |]|]; try (by intros [= <-]).
  destruct (zod.run_checks checks p s); [discriminate|by intros [= <-]].
Qed.

(** * Further properties of the router *)

Section router_extras.

Variable isEmail : string → bool.

Local Abbreviation create := (userRouter.create isEmail).
Local Abbreviation create_schema := (userRouter.create_schema isEmail).
Local Abbreviation delete := userRouter.delete.
Local Abbreviation getAll := userRouter.getAll.

Lemma create_schema_failure_not_nil (raw : json) (l : list zod.ZodIssue) :
  zod.safeParse create_schema raw = zod.failure l → l ≠ [].
Proof.
  unfold zod.safeParse, userRouter.create_schema, zod.object2.
  destruct raw as [| | | | |o]; try (by intros [= <-]).
  destruct (zod.string _ _ (o !! "name")) as [a|l1] eqn:E1;
    destruct (zod.string _ _ (o !! "email")) as [b|l2] eqn:E2;
    simpl; try discriminate; intros [= <-].
  - by apply string_failure_not_nil in E2.
  - apply string_failure_not_nil in E1. rewrite app_nil_r. done.
  - apply string_failure_not_nil in E1. by destruct l1.
Qed.

(** A [create] call that answers with an error has stored nothing. *)
Lemma create_Err_rows (now : Z) (raw : json) (ctx ctx' : Ctx) (e : TRPCError) :
  create now raw ctx = (ctx', Err e) → rows (db ctx') = rows (db ctx).
Proof.
  intros H.
  destruct (zod.safeParse create_schema raw) as [i|l] eqn:Hp.
  - rewrite (create_success _ _ _ _ _ Hp) in H.
    destruct (insert_returning_cases now (input_name i) (input_email i) ctx)
      as [(_ & E)|[(_ & _ & E)|(_ & _ & E)]];
      rewrite E in H; by simplify_eq.
  - rewrite (create_failure _ _ _ _ _ Hp) in H. by simplify_eq.
Qed.

(** *** What [create] reads of its input *)

(** X1. [create] reads the fields [name] and [email] of its input and
    nothing else: two objects that agree on these two fields get the
    same answer and have the same effect, whatever other fields (an
    [id], a [createdAt]) one of them carries. *)
Theorem create_reads_name_and_email (now : Z) (ctx : Ctx)
    (o o' : gmap string json) :
  o !! "name" = o' !! "name" → o !! "email" = o' !! "email" →
  create now (JObj o) ctx = create now (JObj o') ctx.
Proof.
  intros Hn He.
  unfold userRouter.create, input, zod.safeParse, userRouter.create_schema,
    zod.object2.
  by rewrite Hn, He.
Qed.

(** X2. A [create] call stores a row or stores nothing: when it answers
    [Ok], the answer is a record (never [undefined]) and the table is
    the table before with that record appended; when it answers with an
    error, of whatever kind, the rows are the rows before. *)
Theorem create_all_or_nothing (now : Z) (raw : json) (ctx : Ctx) :
  match create now raw ctx with
  | (ctx', Ok r) =>
      ∃ u, r = Some u ∧ rows (db ctx') = rows (db ctx) ++ [u]
           ∧ id u = id_seq (db ctx) + 1 ∧ createdAt u = now
  | (ctx', Err _) => rows (db ctx') = rows (db ctx)
  end.
Proof.
  destruct (create now raw ctx) as [ctx' [r|e]] eqn:E.
  - apply create_Ok_inv in E as (i & _ & _ & _ & -> & ->). simpl. eauto.
  - by apply create_Err_rows in E.
Qed.

(** X3. What decides whether [create] reaches the store.  Either the
    input is an object whose [name] is a non-empty string and whose
    [email] is a string that passes the e-mail test, and one
    [INSERT] with these two values is sent; or it is anything else (not
    an object, a field missing or not a string, an empty name, a bad
    e-mail), and the answer is a [ValidationError] with at least one
    issue while the context is returned untouched. *)
Theorem create_store_access (now : Z) (raw : json) (ctx : Ctx) :
  (∃ o n e,
     raw = JObj o ∧ o !! "name" = Some (JStr n) ∧ o !! "email" = Some (JStr e)
     ∧ n ≠ "" ∧ isEmail e = true
     ∧ trace (fst (create now raw ctx)) = trace ctx ++ [INSERT_RETURNING n e])
  ∨ (∃ issues,
       issues ≠ []
       ∧ create now raw ctx = (ctx, Err (ValidationError issues))).
Proof.
  destruct (zod.safeParse create_schema raw) as [[n e]|l] eqn:Hp.
  - left. pose proof Hp as (o & -> & Hn & He & Hne & Hok)%create_schema_success.
    exists o, n, e. repeat (split; [done|]).
    rewrite (create_success _ _ _ _ _ Hp). simpl.
    by destruct (insert_returning_cases now n e ctx)
      as [(_ & ->)|[(_ & _ & ->)|(_ & _ & ->)]].
  - right. exists l. split; [by eapply create_schema_failure_not_nil|].
    by apply create_failure.
Qed.

(** *** Invariants of the table under any sequence of calls *)

(** X4. Every row that the router has stored went through the parser of
    [create]: if every User of the table has a non-empty name and an
    e-mail that passes the e-mail test, this is still so after any
    sequence of calls, with any inputs. *)
Theorem stored_users_validated (calls : list Call) (ctx : Ctx) :
  Forall (λ u, name u ≠ "" ∧ isEmail (email u) = true) (rows (db ctx)) →
  Forall (λ u, name u ≠ "" ∧ isEmail (email u) = true)
         (rows (db (run isEmail calls ctx))).
Proof.
  revert ctx. induction calls as [|c calls IH]; intros ctx H; [done|].
  apply IH. destruct c as [|now raw|raw]; simpl.
  - done.
  - destruct (create now raw ctx) as [ctx' [r|e]] eqn:E; simpl.
    + apply create_Ok_inv in E as ([n e] & Hp & _ & _ & _ & ->). simpl in *.
      apply create_schema_success in Hp as (o & _ & _ & _ & Hne & Hok).
      apply Forall_app. split; [done|]. by apply Forall_singleton.
    + by rewrite (create_Err_rows _ _ _ _ _ E).
  - destruct (delete_rows raw ctx) as [_ [E|[i E]]]; simpl in E; rewrite E.
    + done.
    + rewrite Forall_forall in H. rewrite Forall_forall.
      intros u [_ Hu]%list_elem_of_filter. by apply H.
Qed.

(** X5. The keys of the schema are kept: in a table whose [id]s and
    whose e-mails have no duplicate, and whose sequence is past every
    [id], any sequence of calls leaves a table in which two rows with
    the same [id], or with the same e-mail, are one row. *)
Theorem keys_stay_unique (calls : list Call) (ctx : Ctx) :
  wf (db ctx) →
  ∀ u v, u ∈ rows (db (run isEmail calls ctx)) →
         v ∈ rows (db (run isEmail calls ctx)) →
         id u = id v ∨ email u = email v → u = v.
Proof.
  intros Hwf u v Hu Hv Heq.
  destruct (run_wf isEmail calls ctx Hwf) as [Hid Hem _].
  destruct Heq as [Heq|Heq].
  - by apply (NoDup_key_inj id (rows (db (run isEmail calls ctx)))).
  - by apply (NoDup_key_inj email (rows (db (run isEmail calls ctx)))).
Qed.

(** One call keeps the [id]s in increasing order along the rows and
    within the values the sequence has handed out. *)
Lemma step_ids_increasing (c : Call) (ctx : Ctx) :
  0 ≤ id_seq (db ctx) →
  StronglySorted (λ u v, id u < id v) (rows (db ctx)) →
  Forall (λ u, 1 ≤ id u ≤ id_seq (db ctx)) (rows (db ctx)) →
  0 ≤ id_seq (db (step isEmail ctx c))
  ∧ StronglySorted (λ u v, id u < id v) (rows (db (step isEmail ctx c)))
  ∧ Forall (λ u, 1 ≤ id u ≤ id_seq (db (step isEmail ctx c)))
           (rows (db (step isEmail ctx c))).
Proof.
  intros Hpos Hs Hb. destruct c as [|now raw|raw]; simpl.
  - done.
  - destruct (create_rows isEmail now raw ctx)
      as [Hle [E|(u & E & Hu & Es & _)]]; simpl in *; rewrite E.
    + split; [lia|]. split; [done|].
      eapply Forall_impl; [exact Hb|]. simpl. intros. lia.
    + split; [lia|]. split.
      * clear -Hs Hb Hu. induction Hs as [|a l Hl IH Ha]; simpl.
        { repeat constructor. }
        apply Forall_cons in Hb as [Ha' Hb]. constructor; [by apply IH|].
        apply Forall_app. split; [done|]. apply Forall_singleton. lia.
      * apply Forall_app. split.
        { eapply Forall_impl; [exact Hb|]. simpl. intros. lia. }
        apply Forall_singleton. lia.
  - destruct (delete_rows raw ctx) as [Es [E|[i E]]]; simpl in *;
      rewrite E, Es; [done|].
    split; [done|]. split; [by apply StronglySorted_filter|].
    rewrite Forall_forall in Hb. rewrite Forall_forall.
    intros u [_ Hu]%list_elem_of_filter. by apply Hb.
Qed.

(** X6. Starting from the empty store, after any sequence of calls
    the [id]s grow strictly along the rows in their order of insertion,
    and every [id] lies between 1 and the last value of the sequence. *)
Theorem ids_increasing (calls : list Call) :
  let t := db (run isEmail calls empty_ctx) in
  StronglySorted (λ u v, id u < id v) (rows t)
  ∧ Forall (λ u, 1 ≤ id u ≤ id_seq t) (rows t).
Proof.
  simpl.
  assert (0 ≤ id_seq (db empty_ctx)
          ∧ StronglySorted (λ u v, id u < id v) (rows (db empty_ctx))
          ∧ Forall (λ u, 1 ≤ id u ≤ id_seq (db empty_ctx)) (rows (db empty_ctx)))
    as H0 by (split; [done|split; constructor]).
  revert H0. generalize empty_ctx.
  induction calls as [|c calls IH]; intros ctx (Hpos & Hs & Hb); [done|].
  apply IH. by apply step_ids_increasing.
Qed.

(** *** [getAll] after calls of every kind *)

(** A sequence of calls keeps the rows in strictly increasing order of
    [createdAt] when the clock of its [create] calls moves forward and
    starts after the rows already there. *)
Lemma run_createdAt_increasing (calls : list Call) (ctx : Ctx) :
  StronglySorted Z.lt (clock calls) →
  StronglySorted (λ u v, createdAt u < createdAt v) (rows (db ctx)) →
  Forall (λ u, Forall (λ now, createdAt u < now) (clock calls)) (rows (db ctx)) →
  StronglySorted (λ u v, createdAt u < createdAt v)
                 (rows (db (run isEmail calls ctx))).
Proof.
  revert ctx. induction calls as [|c calls IH]; intros ctx Hclock Hs Hb; [done|].
  destruct c as [|now raw|raw]; simpl in *.
  - by apply IH.
  - apply StronglySorted_inv in Hclock as [Hclock Hnow].
    destruct (create_rows isEmail now raw ctx)
      as [_ [E|(u & E & _ & _ & Hu & _)]]; simpl in *.
    + apply IH; [done|by rewrite E|]. rewrite E.
      eapply Forall_impl; [exact Hb|]. simpl.
      by intros v [_ ?]%Forall_cons.
    + apply IH; [done| |]; rewrite E.
      * clear -Hs Hb Hu. induction Hs as [|a l Hl IH' Ha]; simpl.
        { repeat constructor. }
        apply Forall_cons in Hb as [[Ha' _]%Forall_cons Hb].
        constructor; [by apply IH'|].
        apply Forall_app. split; [done|]. apply Forall_singleton. lia.
      * apply Forall_app. split.
        { eapply Forall_impl; [exact Hb|]. simpl.
          by intros v [_ ?]%Forall_cons. }
        apply Forall_singleton. by rewrite Hu.
  - destruct (delete_rows raw ctx) as [_ [E|[i E]]]; simpl in *.
    + apply IH; [done|by rewrite E|by rewrite E].
    + apply IH; [done| |]; rewrite E.
      * by apply StronglySorted_filter.
      * rewrite Forall_forall in Hb. rewrite Forall_forall.
        intros u [_ Hu]%list_elem_of_filter. by apply Hb.
Qed.

(** X7. Starting from the empty store, after any sequence of [getAll],
    [create] and [delete] calls whose clock moved forward from one
    [create] to the next, [getAll] answers with the rows of the table in
    their order of insertion, deletions included. *)
Theorem getAll_insertion_order (calls : list Call) :
  StronglySorted Z.lt (clock calls) →
  snd (getAll (run isEmail calls empty_ctx))
  = Ok (rows (db (run isEmail calls empty_ctx))).
Proof.
  intros Hclock. rewrite getAll_eq. f_equal.
  apply merge_sort_createdAt_increasing.
  apply run_createdAt_increasing; [done|constructor|constructor].
Qed.

(** *** [delete] of a stored User *)

(** X8. In a table that satisfies the schema, deleting a stored User by
    its [id], a value of the column, takes out that one row: the table
    has one row less, the User is gone from it and from the answer of
    the next [getAll], and every other stored User is still listed. *)
Theorem delete_stored_user (ctx : Ctx) (u : User) :
  wf (db ctx) → u ∈ rows (db ctx) → int4 (id u) →
  let ctx' := fst (delete (delete_request (id u)) ctx) in
  S (length (rows (db ctx'))) = length (rows (db ctx))
  ∧ (u ∉ rows (db ctx'))
  ∧ ∃ listed,
      snd (getAll ctx') = Ok listed
      ∧ (u ∉ listed)
      ∧ (∀ v, v ∈ rows (db ctx) → v ≠ u → v ∈ listed).
Proof.
  intros [Hid _ _] Hu Hi. simpl. rewrite delete_request_eq by done. simpl.
  split; [by apply filter_key_length|].
  assert (u ∉ filter (λ v, id v ≠ id u) (rows (db ctx))) as Hgone.
  { by intros [? _]%list_elem_of_filter. }
  split; [done|].
  eexists. split; [reflexivity|]. split.
  - by rewrite merge_sort_Permutation.
  - intros v Hv Hne. rewrite merge_sort_Permutation.
    apply list_elem_of_filter. split; [|done].
    intros Heq. apply Hne.
    by apply (NoDup_key_inj id (rows (db ctx))).
Qed.


(** *** The statements sent to the store *)

(** X10. A call sends at most one statement to the store, of the kind
    of its procedure, after those sent before: [getAll] one [SELECT];
    [create] nothing or one [INSERT]; [delete] nothing or one
    [DELETE].  So a sequence of calls only extends the trace, by no
    more statements than it has calls. *)
Theorem one_statement_per_call (calls : list Call) (ctx : Ctx) :
  (∀ c, match c with
        | CallGetAll =>
            trace (step isEmail ctx c) = trace ctx ++ [SELECT_ORDER_BY_createdAt]
        | CallCreate _ _ =>
            trace (step isEmail ctx c) = trace ctx
            ∨ ∃ n e, trace (step isEmail ctx c)
                     = trace ctx ++ [INSERT_RETURNING n e]
        | CallDelete _ =>
            trace (step isEmail ctx c) = trace ctx
            ∨ ∃ q, trace (step isEmail ctx c) = trace ctx ++ [DELETE_WHERE_id q]
        end)
  ∧ trace ctx `prefix_of` trace (run isEmail calls ctx)
  ∧ (length (trace (run isEmail calls ctx))
     ≤ length (trace ctx) + length calls)%nat.
Proof.
  assert (∀ ctx c, match c with
        | CallGetAll =>
            trace (step isEmail ctx c) = trace ctx ++ [SELECT_ORDER_BY_createdAt]
        | CallCreate _ _ =>
            trace (step isEmail ctx c) = trace ctx
            ∨ ∃ n e, trace (step isEmail ctx c)
                     = trace ctx ++ [INSERT_RETURNING n e]
        | CallDelete _ =>
            trace (step isEmail ctx c) = trace ctx
            ∨ ∃ q, trace (step isEmail ctx c) = trace ctx ++ [DELETE_WHERE_id q]
        end) as Hstep.
  { clear. intros ctx [|now raw|raw]; simpl.
    - done.
    - destruct (zod.safeParse create_schema raw) as [i|l] eqn:Hp.
      + right. rewrite (create_success _ _ _ _ _ Hp).
        destruct (insert_returning_cases now (input_name i) (input_email i) ctx)
          as [(_ & ->)|[(_ & _ & ->)|(_ & _ & ->)]]; simpl; eauto.
      + left. by rewrite (create_failure _ _ _ _ _ Hp).
    - unfold userRouter.delete, input, bind, delete_where_id.
      destruct (zod.safeParse _ raw) as [d|l]; simpl; [|by left].
      right. exists (input_id d).
      by destruct (int_of_number (input_id d)). }
  split; [apply Hstep|].
  revert ctx. induction calls as [|c calls IH]; intros ctx; simpl.
  - split; [done|lia].
  - destruct (IH (step isEmail ctx c)) as [Hpre Hlen].
    assert (trace ctx `prefix_of` trace (step isEmail ctx c)
            ∧ (length (trace (step isEmail ctx c)) ≤ S (length (trace ctx)))%nat)
      as [Hp1 Hl1].
    { specialize (Hstep ctx c).
      destruct c; [|destruct Hstep as [->|(? & ? & ->)]
                    |destruct Hstep as [->|(? & ->)]];
        try rewrite Hstep; try rewrite length_app; simpl;
        (split; [by (done || apply prefix_app_r)|lia]). }
    split; [by etrans|]. unfold run in *. lia.
Qed.

End router_extras.

(** * Properties of the page *)

Section page_properties.

Variable isEmail : string → bool.

Local Abbreviation create := (userRouter.create isEmail).
Local Abbreviation create_schema := (userRouter.create_schema isEmail).
Local Abbreviation getAll := userRouter.getAll.
Local Abbreviation handleSubmit := (Home.handleSubmit isEmail).
Local Abbreviation onClickDelete := Home.onClickDelete.

Lemma truthy_not_empty (s : string) : Home.truthy s = true ↔ s ≠ "".
Proof. destruct s; simpl; split; (done || discriminate). Qed.

Lemma create_request_parse (n e : string) :
  zod.safeParse create_schema (create_request n e)
  = match bool_decide (n ≠ ""), isEmail e with
    | true, true => zod.success (mkCreateInput n e)
    | false, true =>
        zod.failure [zod.mkIssue zod.too_small ["name"] (Some "Name is required")]
    | true, false =>
        zod.failure
          [zod.mkIssue zod.invalid_string ["email"] (Some "Invalid email address")]
    | false, false =>
        zod.failure
          [zod.mkIssue zod.too_small ["name"] (Some "Name is required");
           zod.mkIssue zod.invalid_string ["email"] (Some "Invalid email address")]
    end.
Proof.
  apply create_schema_strings; unfold create_request; by simplify_map_eq.
Qed.

Lemma fetch_eq (ctx : Ctx) (st : Home.State) :
  Home.fetch ctx st
  = (mkCtx (db ctx) (trace ctx ++ [SELECT_ORDER_BY_createdAt]),
     Home.mkState (Home.form_name st) (Home.form_email st)
       (Some (merge_sort createdAt_le (rows (db ctx))))
       (Home.createUser_error st)).
Proof. reflexivity. Qed.

(** *** The form *)

(** X11. What a submission of the form can do.  With a field of the form
    empty the button is disabled and [handleSubmit] does nothing: no
    request, the same state.  Otherwise the button is enabled and the
    request is sent; either the e-mail fails the e-mail test, and the
    page gets the [ValidationError] with the one issue of the e-mail
    while nothing reaches the store, or the [INSERT] reaches the store.
    The issue "Name is required" never comes back to the page. *)
Theorem handleSubmit_outcomes (now : Z) (ctx : Ctx) (st : Home.State) :
  (Home.addUserDisabled st = true
   ∧ (Home.form_name st = "" ∨ Home.form_email st = "")
   ∧ handleSubmit now ctx st = (ctx, st))
  ∨ (Home.addUserDisabled st = false
     ∧ isEmail (Home.form_email st) = false
     ∧ handleSubmit now ctx st
       = (ctx,
          Home.mkState (Home.form_name st) (Home.form_email st) (Home.users st)
            (Some (ValidationError
               [zod.mkIssue zod.invalid_string ["email"]
                  (Some "Invalid email address")]))))
  ∨ (Home.addUserDisabled st = false
     ∧ isEmail (Home.form_email st) = true
     ∧ trace ctx ++ [INSERT_RETURNING (Home.form_name st) (Home.form_email st)]
       `prefix_of` trace (fst (handleSubmit now ctx st))).
Proof.
  unfold Home.handleSubmit, Home.addUserDisabled.
  destruct (Home.truthy (Home.form_name st)) eqn:Tn; simpl;
    [|left; apply not_true_iff_false in Tn; rewrite truthy_not_empty in Tn;
      split; [done|]; split; [|done]; left;
      by destruct (decide (Home.form_name st = ""))].
  destruct (Home.truthy (Home.form_email st)) eqn:Te; simpl;
    [|left; apply not_true_iff_false in Te; rewrite truthy_not_empty in Te;
      split; [done|]; split; [|done]; right;
      by destruct (decide (Home.form_email st = ""))].
  right. apply truthy_not_empty in Tn.
  pose proof (create_request_parse (Home.form_name st) (Home.form_email st)) as Hp.
  rewrite bool_decide_eq_true_2 in Hp by done.
  destruct (isEmail (Home.form_email st)) eqn:Hok.
  - right. split; [done|]. split; [done|].
    rewrite (create_success _ _ _ _ _ Hp). simpl.
    destruct (insert_returning_cases now (Home.form_name st)
                (Home.form_email st) ctx)
      as [(_ & ->)|[(_ & _ & ->)|(_ & _ & ->)]]; simpl; [done|done|].
    by apply prefix_app_r.
  - left. split; [done|]. split; [done|].
    by rewrite (create_failure _ _ _ _ _ Hp).
Qed.


(** X13. A submission that fails keeps the form.  When the page holds
    an error after [handleSubmit], the two fields of the form and the
    list are what they were, and so are the rows of the table: the user
    can correct the input and submit again. *)
Theorem handleSubmit_error_keeps_form (now : Z) (ctx : Ctx) (st : Home.State)
    (e : TRPCError) :
  Home.createUser_error (snd (handleSubmit now ctx st)) = Some e →
  Home.form_name (snd (handleSubmit now ctx st)) = Home.form_name st
  ∧ Home.form_email (snd (handleSubmit now ctx st)) = Home.form_email st
  ∧ Home.users (snd (handleSubmit now ctx st)) = Home.users st
  ∧ rows (db (fst (handleSubmit now ctx st))) = rows (db ctx).
Proof.
  unfold Home.handleSubmit.
  destruct (Home.truthy (Home.form_name st) && Home.truthy (Home.form_email st));
    [|done].
  destruct (create now _ ctx) as [ctx1 [r|e']] eqn:E.
  - unfold Home.invalidate. rewrite fetch_eq. simpl. discriminate.
  - simpl. intros _. by rewrite (create_Err_rows _ _ _ _ _ _ E).
Qed.

(** *** The list *)

Lemma onClickDelete_eq (u : User) (ctx : Ctx) (st : Home.State) :
  int4 (id u) →
  onClickDelete u ctx st
  = (mkCtx (mkTable (filter (λ v, id v ≠ id u) (rows (db ctx))) (id_seq (db ctx)))
           (trace ctx ++ [DELETE_WHERE_id (inject_Z (id u));
                          SELECT_ORDER_BY_createdAt]),
     Home.mkState (Home.form_name st) (Home.form_email st)
       (Some (merge_sort createdAt_le
                (filter (λ v, id v ≠ id u) (rows (db ctx)))))
       (Home.createUser_error st)).
Proof.
  intros Hi. unfold Home.onClickDelete. rewrite delete_request_eq by done.
  unfold Home.invalidate. rewrite fetch_eq. simpl.
  by rewrite <- app_assoc.
Qed.

(** X14. The button of a row deletes that row.  In a table that
    satisfies the schema, when the list on the page is the current
    answer of [getAll], a click on the button of a listed User, whose
    [id] is a value of the column, is not refused: the request passes
    the parser, the row is removed, and once the refetch has answered
    the page holds the refreshed list, which is the list before without
    that User and one shorter.  The form and its error are untouched. *)
Theorem onClickDelete_removes (ctx : Ctx) (st : Home.State) (l : list User)
    (u : User) :
  wf (db ctx) →
  Home.users st = Some l → snd (getAll ctx) = Ok l → u ∈ l → int4 (id u) →
  ∃ ctx' l',
    onClickDelete u ctx st
    = (ctx', Home.mkState (Home.form_name st) (Home.form_email st) (Some l')
               (Home.createUser_error st))
    ∧ snd (getAll ctx') = Ok l'
    ∧ (∀ v, v ∈ l' ↔ v ∈ l ∧ v ≠ u)
    ∧ S (length l') = length l.
Proof.
  intros [Hid _ _] _ Hl Hu Hi. rewrite getAll_eq in Hl. simplify_eq.
  rewrite merge_sort_Permutation in Hu.
  rewrite onClickDelete_eq by done. eexists _, _. split; [reflexivity|].
  split; [reflexivity|]. split.
  - intros v. rewrite !merge_sort_Permutation, list_elem_of_filter.
    split.
    + intros [Hne Hv]. split; [done|]. by intros ->.
    + intros [Hv Hne]. split; [|done]. intros Heq. apply Hne.
      by apply (NoDup_key_inj id (rows (db ctx))).
  - rewrite !merge_sort_Permutation. by apply filter_key_length.
Qed.

End page_properties.

(** * The further properties at concrete inputs *)

Ltac wf_ctx_ada :=
  split; simpl;
  [apply NoDup_singleton | apply NoDup_singleton | repeat constructor; simpl; lia].

Lemma create_reads_name_and_email_witness :
  userRouter.create emailRegex.test 20
    (JObj (<["id" := JNum (inject_Z 999)]>
             (<["name" := JStr "Bob"]> (<["email" := JStr "bob@x.com"]> ∅))))
    ctx_ada
  = userRouter.create emailRegex.test 20 (create_request "Bob" "bob@x.com")
      ctx_ada.
Proof.
  apply (create_reads_name_and_email emailRegex.test 20 ctx_ada);
    vm_compute; reflexivity.
Defined.

Lemma stored_users_validated_witness :
  Forall (λ u, name u ≠ "" ∧ emailRegex.test (email u) = true)
         (rows (db (run emailRegex.test
                      [CallCreate 20 (create_request " " "bob@x.com");
                       CallCreate 30 (create_request "" "cy@x.com");
                       CallCreate 40 (create_request "Di" "di@x");
                       CallDelete (delete_request 1)]
                      ctx_ada))).
Proof.
  apply (stored_users_validated emailRegex.test).
  simpl. apply Forall_singleton.
  split; [discriminate | vm_compute; reflexivity].
Defined.

Lemma keys_stay_unique_witness :
  wf (db ctx_ada)
  ∧ ∀ u v,
      u ∈ rows (db (run emailRegex.test
                      [CallCreate 20 (create_request "Ada2" "ada@x.com");
                       CallCreate 30 (create_request "Bob" "bob@x.com")]
                      ctx_ada)) →
      v ∈ rows (db (run emailRegex.test
                      [CallCreate 20 (create_request "Ada2" "ada@x.com");
                       CallCreate 30 (create_request "Bob" "bob@x.com")]
                      ctx_ada)) →
      id u = id v ∨ email u = email v → u = v.
Proof.
  assert (wf (db ctx_ada)) as Hwf by wf_ctx_ada.
  split; [exact Hwf|].
  exact (keys_stay_unique emailRegex.test
           [CallCreate 20 (create_request "Ada2" "ada@x.com");
            CallCreate 30 (create_request "Bob" "bob@x.com")]
           ctx_ada Hwf).
Defined.

Lemma getAll_insertion_order_witness :
  let calls := [CallCreate 10 (create_request "Ada" "ada@x.com");
                CallCreate 20 (create_request "Bob" "bob@x.com");
                CallDelete (delete_request 1);
                CallCreate 30 (create_request "Cy" "cy@x.com");
                CallGetAll] in
  rows (db (run emailRegex.test calls empty_ctx))
  = [mkUser 2 "Bob" "bob@x.com" 20; mkUser 3 "Cy" "cy@x.com" 30]
  ∧ snd (userRouter.getAll (run emailRegex.test calls empty_ctx))
    = Ok (rows (db (run emailRegex.test calls empty_ctx))).
Proof.
  intros calls. split; [vm_compute; reflexivity|].
  apply (getAll_insertion_order emailRegex.test calls).
  simpl. repeat constructor; lia.
Defined.

Lemma delete_stored_user_witness :
  S (length (rows (db (fst (userRouter.delete (delete_request (id ada))
                              ctx_ada)))))
  = length (rows (db ctx_ada))
  ∧ (ada ∉ rows (db (fst (userRouter.delete (delete_request (id ada))
                            ctx_ada))))
  ∧ ∃ listed,
      snd (userRouter.getAll
             (fst (userRouter.delete (delete_request (id ada)) ctx_ada)))
      = Ok listed
      ∧ (ada ∉ listed)
      ∧ (∀ v, v ∈ rows (db ctx_ada) → v ≠ ada → v ∈ listed).
Proof.
  apply (delete_stored_user ctx_ada ada);
    [wf_ctx_ada | simpl; left | unfold int4; simpl; lia].
Defined.



Lemma handleSubmit_error_keeps_form_witness :
  Home.createUser_error
    (snd (Home.handleSubmit emailRegex.test 20 ctx_ada
            (Home.mkState "Ada2" "ada@x.com" (Some [ada]) None)))
  = Some (ConstraintViolation users_email_unique)
  ∧ Home.form_name
      (snd (Home.handleSubmit emailRegex.test 20 ctx_ada
              (Home.mkState "Ada2" "ada@x.com" (Some [ada]) None)))
    = "Ada2"
  ∧ Home.form_email
      (snd (Home.handleSubmit emailRegex.test 20 ctx_ada
              (Home.mkState "Ada2" "ada@x.com" (Some [ada]) None)))
    = "ada@x.com"
  ∧ Home.users
      (snd (Home.handleSubmit emailRegex.test 20 ctx_ada
              (Home.mkState "Ada2" "ada@x.com" (Some [ada]) None)))
    = Some [ada]
  ∧ rows (db (fst (Home.handleSubmit emailRegex.test 20 ctx_ada
                     (Home.mkState "Ada2" "ada@x.com" (Some [ada]) None))))
    = rows (db ctx_ada).
Proof.
  split; [vm_compute; reflexivity|].
  apply (handleSubmit_error_keeps_form emailRegex.test 20 ctx_ada
           (Home.mkState "Ada2" "ada@x.com" (Some [ada]) None)
           (ConstraintViolation users_email_unique)).
  vm_compute; reflexivity.
Defined.

Lemma onClickDelete_removes_witness :
  ∃ ctx' l',
    Home.onClickDelete ada ctx_ada (Home.mkState "B" "" (Some [ada]) None)
    = (ctx', Home.mkState "B" "" (Some l') None)
    ∧ snd (userRouter.getAll ctx') = Ok l'
    ∧ (∀ v, v ∈ l' ↔ v ∈ [ada] ∧ v ≠ ada)
    ∧ S (length l') = length [ada].
Proof.
  apply (onClickDelete_removes ctx_ada (Home.mkState "B" "" (Some [ada]) None)
           [ada] ada).
  - wf_ctx_ada.
  - reflexivity.
  - vm_compute; reflexivity.
  - left.
  - unfold int4; simpl; lia.
Defined.
